(** * Sudoku core: a shallow embedding of [main.py] and its properties

    The search core of the program (the functions [find_empty], [is_safe],
    [solve_backtracking], [count_solutions], [generate_full_board] and
    [make_puzzle]) is embedded as Rocq functions over a board represented,
    as in the source, by a list of rows, each a list of integers.

    - Python integers are [Z]; indices produced by [range] are [nat].
    - [board[r][c]] raises [IndexError] out of range: reads and writes go
      through [getitem]/[setitem] in an error monad.
    - The board is mutated in place by the source; here every function that
      writes takes the board and returns the board it leaves behind.
    - Recursion is bounded by fuel; the entry points fix enough fuel for
      every board (at most 81 cells can be empty). *)

From Stdlib Require Import ZArith Lia ZifyNat.
From stdpp Require Import base list strings.

Open Scope Z_scope.

(* [lia] on goals with division and remainder by constants. *)
Ltac Zify.zify_post_hook ::= Z.div_mod_to_equations.

(** ** Results of fallible computations *)

Inductive result (A : Type) : Type :=
| Ok (a : A)
| IndexError
| OutOfFuel.
Arguments Ok {A} a.
Arguments IndexError {A}.
Arguments OutOfFuel {A}.

Definition rbind {A B} (m : result A) (k : A -> result B) : result B :=
  match m with
  | Ok a => k a
  | IndexError => IndexError
  | OutOfFuel => OutOfFuel
  end.

#[global] Instance result_bind : MBind result := fun A B k m => rbind m k.
#[global] Instance result_ret : MRet result := @Ok.

(** ** Boards *)

(** [Board = List[List[int]]] *)
Abbreviation Board := (list (list Z)).

(** [l[i]] for a non-negative index. *)
Definition getitem {A} (l : list A) (i : nat) : result A :=
  match l !! i with
  | Some x => Ok x
  | None => IndexError
  end.

(** [board[r][c]] *)
Definition get (board : Board) (r c : nat) : result Z :=
  row ← getitem board r; getitem row c.

(** [board[r][c] = v]: the row object is fetched, then written at [c]. *)
Definition setitem (board : Board) (r c : nat) (v : Z) : result Board :=
  row ← getitem board r;
  if decide (c < length row)%nat
  then Ok (<[r := <[c := v]> row]> board)
  else IndexError.

(** [range(lo, lo + n)] as a list of integers. *)
Definition rangeZ (lo : Z) (n : nat) : list Z :=
  map (fun i => lo + Z.of_nat i) (seq 0 n).

(** The cells visited by [for r in range(r0, r0 + h): for c in range(c0, c0 + w)],
    in visiting order. *)
Definition block (r0 h c0 w : nat) : list (nat * nat) :=
  r ← seq r0 h; c ← seq c0 w; [(r, c)].

(** [[(r, c) for r in range(9) for c in range(9)]] *)
Definition all_cells : list (nat * nat) := block 0 9 0 9.

(** ** Empty-cell locator *)

(** The nested loops of [find_empty], over the cells still to visit. *)
Fixpoint find_empty_from (board : Board) (cells : list (nat * nat))
  : result (option (nat * nat)) :=
  match cells with
  | [] => Ok None
  | (r, c) :: cells' =>
      v ← get board r c;
      if v =? 0 then Ok (Some (r, c)) else find_empty_from board cells'
  end.

Definition find_empty (board : Board) : result (option (nat * nat)) :=
  find_empty_from board all_cells.

(** ** Constraint checker *)

(** [any(board[r][c] == num for (r, c) in cells)], stopping at the first hit. *)
Fixpoint any_eq (board : Board) (num : Z) (cells : list (nat * nat))
  : result bool :=
  match cells with
  | [] => Ok false
  | (r, c) :: cells' =>
      v ← get board r c;
      if v =? num then Ok true else any_eq board num cells'
  end.

Definition is_safe (board : Board) (row col : nat) (num : Z) : result bool :=
  cells ← getitem board row;
  if existsb (Z.eqb num) cells then Ok false else
  in_col ← any_eq board num (block 0 9 col 1);
  if in_col : bool then Ok false else
  let box_row := (3 * (row / 3))%nat in
  let box_col := (3 * (col / 3))%nat in
  in_box ← any_eq board num (block box_row 3 box_col 3);
  if in_box : bool then Ok false else Ok true.

(** ** Satisfiability solver *)

(** The [for num in range(1, 10)] loop of [solve_backtracking] at the cell
    [(r, c)]; [rec] is the recursive call. *)
Fixpoint solve_loop (rec : Board -> result (bool * Board)) (r c : nat)
    (nums : list Z) (board : Board) : result (bool * Board) :=
  match nums with
  | [] => Ok (false, board)
  | num :: nums' =>
      safe ← is_safe board r c num;
      if safe : bool then
        board ← setitem board r c num;
        '(solved, board) ← rec board;
        if solved : bool then Ok (true, board)
        else
          board ← setitem board r c 0;
          solve_loop rec r c nums' board
      else solve_loop rec r c nums' board
  end.

Fixpoint solve_backtracking_fuel (fuel : nat) (board : Board)
  : result (bool * Board) :=
  match fuel with
  | O => OutOfFuel
  | S fuel' =>
      spot ← find_empty board;
      match spot with
      | None => Ok (true, board)
      | Some (r, c) =>
          solve_loop (solve_backtracking_fuel fuel') r c (rangeZ 1 9) board
      end
  end.

(** Each nested call fills one more empty cell, so 82 frames are enough. *)
Definition solve_backtracking (board : Board) : result (bool * Board) :=
  solve_backtracking_fuel 82 board.

(** ** Bounded solution counter *)

(** The [for num in range(1, 10)] loop of [count_solutions], with the running
    [count]. *)
Fixpoint count_loop (rec : Board -> result (Z * Board)) (limit : Z)
    (r c : nat) (nums : list Z) (count : Z) (board : Board)
  : result (Z * Board) :=
  match nums with
  | [] => Ok (count, board)
  | num :: nums' =>
      safe ← is_safe board r c num;
      if safe : bool then
        board ← setitem board r c num;
        '(n, board) ← rec board;
        let count := count + n in
        board ← setitem board r c 0;
        if limit <=? count then Ok (count, board)
        else count_loop rec limit r c nums' count board
      else count_loop rec limit r c nums' count board
  end.

Fixpoint count_solutions_fuel (fuel : nat) (board : Board) (limit : Z)
  : result (Z * Board) :=
  match fuel with
  | O => OutOfFuel
  | S fuel' =>
      spot ← find_empty board;
      match spot with
      | None => Ok (1, board)
      | Some (r, c) =>
          count_loop (fun b => count_solutions_fuel fuel' b limit) limit
            r c (rangeZ 1 9) 0 board
      end
  end.

Definition count_solutions (board : Board) (limit : Z) : result (Z * Board) :=
  count_solutions_fuel 82 board limit.

(** ** Random source *)

(** [random.shuffle(x)] reorders the list [x] in place, consuming randomness.
    The random source is a parameter: a state type [rng] and the function
    computing the reordered list and the next state. *)
Class Shuffle (rng : Type) : Type :=
  shuffle : forall A : Type, rng -> list A -> list A * rng.
Arguments shuffle {rng _ A} s l.

(** The contract of [random.shuffle]: the result is a permutation of the
    argument. *)
Class ShuffleSpec (rng : Type) `{!Shuffle rng} : Prop :=
  shuffle_perm : forall (A : Type) (s : rng) (l : list A), (shuffle s l).1 ≡ₚ l.

(** ** Full-grid generator *)

Section generator.
Context {rng : Type} `{!Shuffle rng}.

(** The variables shared by [generate_full_board] and its nested
    [fill_cell]: the board, the list [nums] (one object, reshuffled in
    place by every call of [fill_cell]) and the random source. *)
Record gen_state : Type := GenState {
  gen_board : Board;
  gen_nums : list Z;
  gen_rng : rng
}.

Definition with_board (st : gen_state) (board : Board) : gen_state :=
  GenState board (gen_nums st) (gen_rng st).

(** The loop [for n in nums] of [fill_cell]: the list iterator holds the
    index [i] of the next element and reads [nums[i]] from the list as it
    is at that moment, after whatever the nested calls did to it; it stops
    when the index is past the end. [idxs] are the indices still to visit:
    shuffling keeps the length, so they are those of the list on entry. *)
Fixpoint fill_loop (rec : gen_state -> result (bool * gen_state))
    (r c : nat) (idxs : list nat) (st : gen_state)
  : result (bool * gen_state) :=
  match idxs with
  | [] => Ok (false, st)
  | i :: idxs' =>
      match gen_nums st !! i with
      | None => Ok (false, st)
      | Some n =>
          safe ← is_safe (gen_board st) r c n;
          if safe : bool then
            board ← setitem (gen_board st) r c n;
            '(filled, st) ← rec (with_board st board);
            if filled : bool then Ok (true, st)
            else
              board ← setitem (gen_board st) r c 0;
              fill_loop rec r c idxs' (with_board st board)
          else fill_loop rec r c idxs' st
      end
  end.

Fixpoint fill_cell (fuel : nat) (idx : nat) (st : gen_state)
  : result (bool * gen_state) :=
  match fuel with
  | O => OutOfFuel
  | S fuel' =>
      if (idx =? 81)%nat then Ok (true, st) else
      let r := (idx / 9)%nat in
      let c := (idx mod 9)%nat in
      let '(nums, s) := shuffle (gen_rng st) (gen_nums st) in
      fill_loop (fill_cell fuel' (idx + 1)) r c (seq 0 (length nums))
        (GenState (gen_board st) nums s)
  end.

(** The result of [fill_cell(0)] is discarded; the board is returned as the
    call left it. *)
Definition generate_full_board (s : rng) : result (Board * rng) :=
  let board := replicate 9 (replicate 9 0) in
  let nums := rangeZ 1 9 in
  '(_, st) ← fill_cell 82 0 (GenState board nums s);
  Ok (gen_board st, gen_rng st).
End generator.

(** ** A scripted random source *)

Module Scripted.
(** A source that replays a script: each entry lists, for every position of
    the shuffled list, the index of the element that moves there. *)
Definition rng : Type := list (list nat).

(** [p] lists each of the indices [0..n-1] once. *)
Definition is_perm (p : list nat) (n : nat) : bool :=
  (length p =? n)%nat && forallb (fun i => existsb (Nat.eqb i) p) (seq 0 n).

Definition reorder {A} (p : list nat) (l : list A) : list A :=
  if is_perm p (length l) then omap (fun i => l !! i) p else l.

#[global] Instance scripted_shuffle : Shuffle rng := fun A s l =>
  match s with
  | [] => (l, [])
  | p :: s' => (reorder p l, s')
  end.
End Scripted.

Module Adversary.
Import Scripted.

(** A source under which the generator never gets past cell 15. Its
    shuffles steer every visit of the cells 0..14 to the values
    1 2 3 4 5 6 7 8 9 / 4 5 6 1 2 3, after which cell 15 (row 1, column 6)
    has no candidate left: 1..6 are in its row and 7, 8, 9 in its box. When
    a caller resumes its loop, the reordered list shows it, from its next
    index on, only values that fail [is_safe] and then the same value again,
    never one of the values that would lead to a full board.

    For the cells 0..14 in turn: the order of [nums] on entering the cell,
    and the orders left in [nums] when each but the last of the nested
    calls made at this cell comes back. *)
Definition plan : list (list Z * list (list Z)) :=
  [ ([1;9;8;7;6;5;4;3;2],
     [[9;1;8;7;6;5;4;3;2]; [9;8;1;7;6;5;4;3;2]; [9;8;7;1;6;5;4;3;2];
      [9;8;7;6;1;5;4;3;2]; [9;8;7;6;5;1;4;3;2]; [9;8;7;6;5;4;1;3;2];
      [9;8;7;6;5;4;3;1;2]; [9;8;7;6;5;4;3;2;1]]);
    ([2;9;8;7;6;5;4;3;1],
     [[9;1;2;8;7;6;5;4;3]; [9;8;7;1;2;6;5;4;3]; [9;8;7;6;5;1;2;4;3];
      [9;8;7;6;5;4;3;1;2]]);
    ([2;3;9;8;7;6;5;4;1],
     [[8;9;2;3;7;6;5;4;1]; [9;8;6;7;2;3;5;4;1]; [9;8;7;6;5;4;2;1;3]]);
    ([3;2;1;4;9;8;7;6;5], [[9;8;7;6;3;2;1;4;5]]);
    ([4;3;2;5;9;8;7;6;1], [[9;8;7;6;4;3;2;1;5]]);
    ([5;4;3;2;1;6;9;8;7], []);
    ([6;5;4;3;2;7;9;8;1], []);
    ([7;6;5;4;3;8;9;2;1], []);
    ([8;7;6;5;4;9;3;2;1], []);
    ([3;2;4;9;8;7;6;5;1],
     [[7;9;8;3;4;6;5;2;1]; [9;8;7;6;5;3;2;1;4]]);
    ([4;3;2;5;9;8;7;6;1], [[9;8;7;6;4;3;2;1;5]]);
    ([5;4;3;2;1;6;9;8;7], []);
    ([1;9;8;7;6;5;4;3;2],
     [[9;6;5;4;1;8;7;3;2]; [9;7;3;2;8;6;5;4;1]]);
    ([6;5;4;2;9;8;7;3;1], [[9;8;7;3;6;5;4;1;2]]);
    ([6;5;3;9;8;7;4;2;1], [[9;7;8;6;5;4;2;1;3]]) ].

(** The orders of [nums] after each successive shuffle: on entering a
    cell, its entry order; below it, one subtree per nested call, the last
    entry of each subtree being the order that the cell finds on return. *)
Fixpoint orders (plan : list (list Z * list (list Z))) (last : list Z)
  : list (list Z) :=
  match plan with
  | [] => [last]
  | (entry, returns) :: plan' =>
      entry :: (returns ++ [last]) ≫= orders plan'
  end.

Fixpoint index_of (x : Z) (l : list Z) : nat :=
  match l with
  | [] => 0%nat
  | y :: l' => if x =? y then 0%nat else S (index_of x l')
  end.

(** The script realising a sequence of orders from the initial list. *)
Fixpoint script (cur : list Z) (os : list (list Z)) : rng :=
  match os with
  | [] => []
  | o :: os' => map (fun x => index_of x cur) o :: script o os'
  end.

Definition source : rng :=
  script (rangeZ 1 9) (orders plan [9;8;7;6;5;4;3;2;1]).
End Adversary.

(** ** Puzzle carver *)

Section carver.
Context {rng : Type} `{!Shuffle rng}.

(** The loop [for r, c in cells] of [make_puzzle]. The solution counter
    runs on [temp], a copy: the board it leaves behind is dropped. *)
Fixpoint carve_loop (cells : list (nat * nat)) (holes removed : Z)
    (puzzle : Board) : result Board :=
  match cells with
  | [] => Ok puzzle
  | (r, c) :: cells' =>
      if holes <=? removed then Ok puzzle else
      backup ← get puzzle r c;
      puzzle ← setitem puzzle r c 0;
      let temp := puzzle in
      '(n, _) ← count_solutions temp 2;
      if n =? 1 then carve_loop cells' holes (removed + 1) puzzle
      else
        puzzle ← setitem puzzle r c backup;
        carve_loop cells' holes removed puzzle
  end.

Definition make_puzzle (full : Board) (holes : Z) (s : rng)
  : result (Board * rng) :=
  let puzzle := full in
  let '(cells, s) := shuffle s all_cells in
  puzzle ← carve_loop cells holes 0 puzzle;
  Ok (puzzle, s).
End carver.

(** ** Checking the entries *)

(** The loops of [SudokuApp.check], over the cells still to visit. [board]
    is the board that [read_board] built; [marks] logs the calls of
    [cell.setStyleSheet], one per non-empty cell: the cell and whether its
    colour is red. The other widget traffic (the text fields read, the final
    message box) is left out. *)
Fixpoint check_cells (cells : list (nat * nat)) (board : Board)
    (marks : list ((nat * nat) * bool))
  : result (Board * list ((nat * nat) * bool)) :=
  match cells with
  | [] => Ok (board, marks)
  | (r, c) :: cells' =>
      val ← get board r c;
      if val =? 0 then check_cells cells' board marks else
      board ← setitem board r c 0;
      ok ← is_safe board r c val;
      board ← setitem board r c val;
      let red := negb ok in
      check_cells cells' board (marks ++ [((r, c), red)])
  end.

Definition check (board : Board)
  : result (Board * list ((nat * nat) * bool)) :=
  check_cells all_cells board [].

(** ** Generating a puzzle *)

(** [DIFFICULTY], with its keys in the order the combo box lists them. *)
Definition DIFFICULTY : list (string * Z) :=
  [("Հեշտ", 36); ("Միջին", 45); ("Դժվար", 54)].

(** [d[key]] on a dict; [None] stands for [KeyError]. *)
Fixpoint dict_get (d : list (string * Z)) (key : string) : option Z :=
  match d with
  | [] => None
  | (k, v) :: d' => if decide (key = k) then Some v else dict_get d' key
  end.

(** [[puzzle[r][c] != 0 for c in cols]] *)
Fixpoint mask_row (puzzle : Board) (r : nat) (cols : list nat)
  : result (list bool) :=
  match cols with
  | [] => Ok []
  | c :: cols' =>
      v ← get puzzle r c;
      rest ← mask_row puzzle r cols';
      Ok (negb (v =? 0) :: rest)
  end.

(** [[[puzzle[r][c] != 0 for c in range(9)] for r in rows]] *)
Fixpoint mask_rows (puzzle : Board) (rows : list nat)
  : result (list (list bool)) :=
  match rows with
  | [] => Ok []
  | r :: rows' =>
      row ← mask_row puzzle r (seq 0 9);
      rest ← mask_rows puzzle rows';
      Ok (row :: rest)
  end.

(** What [SudokuApp.generate] leaves behind: the board and the mask handed
    to [write_board], and the board stored in [self.solution]. *)
Record generated : Type := Generated {
  shown_puzzle : Board;
  fixed_mask : list (list bool);
  stored_solution : Board
}.

Section generate.
Context {rng : Type} `{!Shuffle rng}.

(** [SudokuApp.generate]; [difficulty] is the text of the combo box. The
    outer [None] stands for the [KeyError] of [DIFFICULTY[difficulty]]; the
    widgets that [write_board] fills are left out. *)
Definition generate (difficulty : string) (s : rng)
  : option (result (generated * rng)) :=
  match dict_get DIFFICULTY difficulty with
  | None => None
  | Some holes =>
      Some ('(full, s) ← generate_full_board s;
            '(puzzle, s) ← make_puzzle full holes s;
            let solution := full in
            mask ← mask_rows puzzle (seq 0 9);
            Ok (Generated puzzle mask solution, s))
  end.
End generate.

(** * Specification vocabulary *)

(** A 9x9 board: nine rows of nine cells. *)
Definition wf (board : Board) : Prop :=
  length board = 9%nat /\ Forall (fun row => length row = 9%nat) board.

(** The value of a cell, read totally (0 off the board). *)
Definition cell (board : Board) (p : nat * nat) : Z :=
  default 0 (board !! p.1 ≫= fun row => row !! p.2).

(** The board written at one cell (unchanged if the row does not exist). *)
Definition upd (board : Board) (p : nat * nat) (v : Z) : Board :=
  match board !! p.1 with
  | Some row => <[p.1 := <[p.2 := v]> row]> board
  | None => board
  end.

Definition on_board (p : nat * nat) : Prop := (p.1 < 9)%nat /\ (p.2 < 9)%nat.

(** Row-major order of cells. *)
Definition before (p q : nat * nat) : Prop :=
  (9 * p.1 + p.2 < 9 * q.1 + q.2)%nat.

(** Integers in [0,9]. *)
Definition digits (board : Board) : Prop :=
  forall p, on_board p -> 0 <= cell board p <= 9.

(** No empty cell. *)
Definition full (board : Board) : Prop :=
  forall p, on_board p -> cell board p <> 0.

(** The cells of row [k], of column [k] and of box [k] (boxes numbered
    row-major). *)
Definition row_cells (k : nat) : list (nat * nat) := block k 1 0 9.
Definition col_cells (k : nat) : list (nat * nat) := block 0 9 k 1.
Definition box_cells (k : nat) : list (nat * nat) :=
  block (3 * (k / 3)) 3 (3 * (k mod 3)) 3.

Definition values (board : Board) (cells : list (nat * nat)) : list Z :=
  cell board <$> cells.

Definition occurrences (v : Z) (l : list Z) : nat :=
  length (filter (fun x => x = v) l).

(** A list contains each of 1..9 exactly once. *)
Definition each_once (l : list Z) : bool :=
  forallb (fun v => (occurrences v l =? 1)%nat) (rangeZ 1 9).

(** The full-grid invariant: every row, every column and every box contains
    each of 1..9 exactly once. *)
Definition validb (board : Board) : bool :=
  forallb (fun k =>
      each_once (values board (row_cells k)) &&
      each_once (values board (col_cells k)) &&
      each_once (values board (box_cells k)))
    (seq 0 9).

Definition valid (board : Board) : Prop := validb board = true.

(** Two different cells that share a row, a column or a box. *)
Definition same_unit (p q : nat * nat) : Prop :=
  p.1 = q.1 \/ p.2 = q.2 \/
  ((p.1 / 3)%nat = (q.1 / 3)%nat /\ (p.2 / 3)%nat = (q.2 / 3)%nat).

Definition peers (p q : nat * nat) : Prop := p <> q /\ same_unit p q.

(** The placed values are consistent: no two peers hold the same placed
    value. *)
Definition consistent (board : Board) : Prop :=
  forall p q, on_board p -> on_board q -> peers p q ->
    cell board p <> 0 -> cell board p <> cell board q.

(** [s] is a valid completion of [g]. *)
Definition completion (g s : Board) : Prop :=
  wf s /\ valid s /\
  forall p, on_board p -> cell g p <> 0 -> cell s p = cell g p.

(** Lexicographic order on lists of integers. *)
Inductive lex_le : list Z -> list Z -> Prop :=
| lex_le_nil l : lex_le [] l
| lex_le_lt x y l k : x < y -> lex_le (x :: l) (y :: k)
| lex_le_eq x l k : lex_le l k -> lex_le (x :: l) (x :: k).

(** A board read in row-major order. *)
Definition flatten (board : Board) : list Z := concat board.

(** The answer of [is_safe] on a 9x9 board, as a total function. *)
Definition safe (board : Board) (p : nat * nat) (num : Z) : bool :=
  negb (existsb (fun q => cell board q =? num)
          (row_cells p.1 ++ col_cells p.2 ++
           block (3 * (p.1 / 3)) 3 (3 * (p.2 / 3)) 3)).

(** The 27 units of the board. *)
Definition units : list (list (nat * nat)) :=
  (row_cells <$> seq 0 9) ++ (col_cells <$> seq 0 9) ++ (box_cells <$> seq 0 9).

#[global] Instance same_unit_dec p q : Decision (same_unit p q).
Proof. unfold same_unit. apply _. Defined.

#[global] Instance on_board_dec p : Decision (on_board p).
Proof. unfold on_board. apply _. Defined.

#[global] Instance peers_dec p q : Decision (peers p q).
Proof. unfold peers. apply _. Defined.

(** All cells among the first [n] in row-major order are filled. *)
Definition filled_upto (g : Board) (n : nat) : Prop :=
  forall p, on_board p -> (9 * p.1 + p.2 < n)%nat -> cell g p <> 0.

(** [g'] keeps every placed value of [g]. *)
Definition extends (g g' : Board) : Prop :=
  forall p, on_board p -> cell g p <> 0 -> cell g' p = cell g p.

(** What a run of the solver guarantees: on success a full board that keeps
    the clues and the properties of the placed values, on failure the board
    it was given. *)
Definition solve_post (g : Board) (solved : bool) (g' : Board) : Prop :=
  if solved then
    wf g' /\ full g' /\ extends g g' /\
    (digits g -> digits g') /\ (consistent g -> consistent g')
  else g' = g.

(** The number of boards of [l] holding one of [nums] at [p]. *)
Definition tally (l : list Board) (p : nat * nat) (nums : list Z) : Z :=
  foldr (fun v a => Z.of_nat (length (filter (fun s => cell s p = v) l)) + a)
    0 nums.

(** The invariant of the carving loop: the puzzle has exactly one counted
    solution and shows only values of the solution it was carved from. *)
Definition carved (solution puzzle : Board) : Prop :=
  wf puzzle /\ count_solutions puzzle 2 = Ok (1, puzzle) /\
  extends puzzle solution.

(** While [fill_cell idx] runs, the cells before [idx] are filled, the
    others are empty, and [nums] holds the digits 1..9 in some order. *)
Definition fill_pre {rng : Type} (idx : nat) (st : @gen_state rng) : Prop :=
  wf (gen_board st) /\ digits (gen_board st) /\ consistent (gen_board st) /\
  filled_upto (gen_board st) idx /\
  (forall p, on_board p -> (idx <= 9 * p.1 + p.2)%nat ->
     cell (gen_board st) p = 0) /\
  gen_nums st ≡ₚ rangeZ 1 9.

Definition fill_post {rng : Type} (st : @gen_state rng) (filled : bool)
    (st' : @gen_state rng) : Prop :=
  gen_nums st' ≡ₚ rangeZ 1 9 /\
  if filled then wf (gen_board st') /\ valid (gen_board st')
  else gen_board st' = gen_board st.

(** The number of empty cells. *)
Definition empties (board : Board) : nat :=
  length (filter (fun p => cell board p = 0) all_cells).

(** The value of a cell is also held by one of its peers. *)
Definition conflict (board : Board) (p : nat * nat) : Prop :=
  exists q, on_board q /\ peers p q /\ cell board q = cell board p.

(** All lists of length [n] over an alphabet. *)
Fixpoint words {A} (n : nat) (alphabet : list A) : list (list A) :=
  match n with
  | O => [[]]
  | S n' => a ← alphabet; (fun l => a :: l) <$> words n' alphabet
  end.

(** All 9x9 boards of digits 1..9. *)
Definition filled_boards : list Board := words 9 (words 9 (rangeZ 1 9)).

#[global] Instance wf_dec board : Decision (wf board).
Proof. unfold wf. apply _. Defined.

#[global] Instance valid_dec board : Decision (valid board).
Proof. unfold valid. apply _. Defined.

(** [completion], with the agreement checked cell by cell. *)
Definition completes (g s : Board) : Prop :=
  wf s /\ valid s /\
  Forall (fun p => cell g p <> 0 -> cell s p = cell g p) all_cells.

(** The valid completions of a board, each once. *)
Definition completions (g : Board) : list Board :=
  filter (completes g) filled_boards.

(** The cells that [g] added to [g0] hold digits 1..9 and clash with no
    peer. *)
Definition added_clean (g0 g : Board) : Prop :=
  forall p, on_board p -> cell g0 p = 0 -> cell g p <> 0 ->
    1 <= cell g p <= 9 /\ ~ conflict g p.

(** * Example boards *)

Module Examples.
(** A solved board. *)
Definition solved : Board :=
  [ [1;2;3;4;5;6;7;8;9];
    [4;5;6;7;8;9;1;2;3];
    [7;8;9;1;2;3;4;5;6];
    [2;3;4;5;6;7;8;9;1];
    [5;6;7;8;9;1;2;3;4];
    [8;9;1;2;3;4;5;6;7];
    [3;4;5;6;7;8;9;1;2];
    [6;7;8;9;1;2;3;4;5];
    [9;1;2;3;4;5;6;7;8] ].

(** [solved] with six cells emptied. *)
Definition puzzle : Board :=
  [ [1;2;3;4;5;6;7;8;9];
    [4;0;6;7;8;9;1;2;3];
    [7;8;9;1;2;0;4;5;6];
    [2;3;4;5;6;7;8;9;1];
    [5;6;7;0;9;1;2;3;4];
    [8;9;1;2;3;4;5;6;0];
    [0;4;5;6;7;8;9;1;2];
    [6;7;8;9;1;2;3;4;5];
    [9;1;2;3;4;5;6;0;8] ].

(** [solved] with a second 2 typed into the first row: full, not valid. *)
Definition clash : Board :=
  [ [2;2;3;4;5;6;7;8;9];
    [4;5;6;7;8;9;1;2;3];
    [7;8;9;1;2;3;4;5;6];
    [2;3;4;5;6;7;8;9;1];
    [5;6;7;8;9;1;2;3;4];
    [8;9;1;2;3;4;5;6;7];
    [3;4;5;6;7;8;9;1;2];
    [6;7;8;9;1;2;3;4;5];
    [9;1;2;3;4;5;6;7;8] ].

(** [clash] with the last cell emptied. *)
Definition clash_open : Board :=
  [ [2;2;3;4;5;6;7;8;9];
    [4;5;6;7;8;9;1;2;3];
    [7;8;9;1;2;3;4;5;6];
    [2;3;4;5;6;7;8;9;1];
    [5;6;7;8;9;1;2;3;4];
    [8;9;1;2;3;4;5;6;7];
    [3;4;5;6;7;8;9;1;2];
    [6;7;8;9;1;2;3;4;5];
    [9;1;2;3;4;5;6;7;0] ].

(** Consistent clues that leave no value for the last cell of the first
    row. *)
Definition stuck : Board :=
  [ [1;2;3;4;5;6;7;8;0];
    [0;0;0;0;0;0;0;0;9];
    [0;0;0;0;0;0;0;0;0];
    [0;0;0;0;0;0;0;0;0];
    [0;0;0;0;0;0;0;0;0];
    [0;0;0;0;0;0;0;0;0];
    [0;0;0;0;0;0;0;0;0];
    [0;0;0;0;0;0;0;0;0];
    [0;0;0;0;0;0;0;0;0] ].

(** A puzzle on which the counter, run with limit 2, adds up 3: 1 under one
    candidate of the first empty cell, then 2 under another. *)
Definition three : Board :=
  [ [7;6;9;4;0;3;2;8;0];
    [8;5;0;7;2;6;9;0;1];
    [1;2;0;9;5;8;0;0;7];
    [9;3;0;5;4;0;7;2;6];
    [4;1;5;6;0;2;3;9;8];
    [0;7;2;3;8;9;0;0;4];
    [5;8;1;2;9;0;0;0;0];
    [3;9;0;1;6;4;8;5;2];
    [2;4;6;0;0;0;1;0;9] ].
(** The solved board that comes first in the lexicographic order. *)
Definition ordered : Board :=
  [ [1;2;3;4;5;6;7;8;9];
    [4;5;6;7;8;9;1;2;3];
    [7;8;9;1;2;3;4;5;6];
    [2;1;4;3;6;5;8;9;7];
    [3;6;5;8;9;7;2;1;4];
    [8;9;7;2;1;4;3;6;5];
    [5;3;1;6;4;2;9;7;8];
    [6;4;2;9;7;8;5;3;1];
    [9;7;8;5;3;1;6;4;2] ].

(** The board with every cell empty. *)
Definition blank : Board := replicate 9 (replicate 9 0).
End Examples.

(** * Proofs *)

(** ** Reading and writing cells *)

Lemma elem_of_block r0 h c0 w p :
  p ∈ block r0 h c0 w <->
  (r0 <= p.1 < r0 + h)%nat /\ (c0 <= p.2 < c0 + w)%nat.
Proof.
  unfold block. rewrite list_elem_of_bind. split.
  - intros (r & Hp & Hr). apply list_elem_of_bind in Hp as (c & Hp & Hc).
    apply list_elem_of_singleton in Hp as ->.
    apply elem_of_seq in Hr. apply elem_of_seq in Hc. simpl. lia.
  - intros [Hr Hc]. exists p.1. split; [|apply elem_of_seq; lia].
    apply list_elem_of_bind. exists p.2. split; [|apply elem_of_seq; lia].
    destruct p. apply list_elem_of_singleton. reflexivity.
Qed.

Lemma elem_of_all_cells p : p ∈ all_cells <-> on_board p.
Proof. unfold all_cells, on_board. rewrite elem_of_block. lia. Qed.

Lemma wf_lookup board r :
  wf board -> (r < 9)%nat ->
  exists row, board !! r = Some row /\ length row = 9%nat.
Proof.
  intros [Hlen Hrows] Hr.
  destruct (lookup_lt_is_Some_2 board r) as [row Hrow]; [lia|].
  exists row. split; [done|].
  rewrite Forall_forall in Hrows. apply Hrows.
  eapply list_elem_of_lookup_2, Hrow.
Qed.

Lemma wf_cell board p :
  wf board -> on_board p ->
  exists row, board !! p.1 = Some row /\ row !! p.2 = Some (cell board p).
Proof.
  intros Hwf [Hr Hc]. destruct (wf_lookup board p.1 Hwf Hr) as (row & Hrow & Hlen).
  exists row. split; [done|].
  destruct (lookup_lt_is_Some_2 row p.2) as [v Hv]; [lia|].
  unfold cell. rewrite Hrow. simpl. rewrite Hv. reflexivity.
Qed.

Lemma get_cell board r c :
  wf board -> on_board (r, c) -> get board r c = Ok (cell board (r, c)).
Proof.
  intros Hwf Hp. destruct (wf_cell board (r, c) Hwf Hp) as (row & Hrow & Hv).
  simpl in *. unfold get, getitem. rewrite Hrow. simpl. rewrite Hv. reflexivity.
Qed.

Lemma setitem_upd board r c v :
  wf board -> on_board (r, c) -> setitem board r c v = Ok (upd board (r, c) v).
Proof.
  intros Hwf [Hr Hc]. destruct (wf_lookup board r Hwf Hr) as (row & Hrow & Hlen).
  simpl in *. unfold setitem, getitem, upd. simpl. rewrite Hrow. simpl.
  rewrite decide_True by lia. reflexivity.
Qed.

Lemma upd_wf board p v : wf board -> wf (upd board p v).
Proof.
  intros [Hlen Hrows]. unfold upd.
  destruct (board !! p.1) as [row|] eqn:Hrow; [|done].
  split; [by rewrite length_insert|].
  apply Forall_insert; [done|]. rewrite length_insert.
  rewrite Forall_forall in Hrows. apply Hrows.
  eapply list_elem_of_lookup_2, Hrow.
Qed.

Lemma cell_upd_eq board p v :
  wf board -> on_board p -> cell (upd board p v) p = v.
Proof.
  intros Hwf [Hr Hc]. destruct (wf_lookup board p.1 Hwf Hr) as (row & Hrow & Hlen).
  unfold cell, upd. rewrite Hrow.
  rewrite list_lookup_insert_eq by (destruct Hwf; lia). simpl.
  rewrite list_lookup_insert_eq by lia. reflexivity.
Qed.

Lemma cell_upd_ne board p q v :
  p <> q -> cell (upd board p v) q = cell board q.
Proof.
  intros Hne. unfold cell, upd.
  destruct (board !! p.1) as [row|] eqn:Hrow; [|done].
  destruct (decide (p.1 = q.1)) as [Heq|Hr].
  - rewrite <- Heq.
    destruct (decide (p.1 < length board)%nat) as [Hlt|Hge].
    + rewrite list_lookup_insert_eq by done. rewrite Hrow. simpl.
      rewrite list_lookup_insert_ne; [done|].
      intros Hc. apply Hne. destruct p, q. simpl in *. congruence.
    + apply lookup_lt_Some in Hrow. lia.
  - rewrite list_lookup_insert_ne by done. reflexivity.
Qed.

(** A 9x9 board is determined by its cells. *)
Lemma board_ext b1 b2 :
  wf b1 -> wf b2 -> (forall p, on_board p -> cell b1 p = cell b2 p) -> b1 = b2.
Proof.
  intros Hwf1 Hwf2 Heq. apply list_eq. intros r.
  destruct (decide (r < 9)%nat) as [Hr|Hr].
  - destruct (wf_lookup b1 r Hwf1 Hr) as (row1 & Hrow1 & Hlen1).
    destruct (wf_lookup b2 r Hwf2 Hr) as (row2 & Hrow2 & Hlen2).
    rewrite Hrow1, Hrow2. f_equal. apply list_eq. intros c.
    destruct (decide (c < 9)%nat) as [Hc|Hc].
    + specialize (Heq (r, c) (conj Hr Hc)). unfold cell in Heq. simpl in Heq.
      rewrite Hrow1, Hrow2 in Heq. simpl in Heq.
      destruct (lookup_lt_is_Some_2 row1 c) as [v1 Hv1]; [lia|].
      destruct (lookup_lt_is_Some_2 row2 c) as [v2 Hv2]; [lia|].
      rewrite Hv1, Hv2 in *. simpl in Heq. congruence.
    + rewrite !lookup_ge_None_2 by lia. reflexivity.
  - destruct Hwf1, Hwf2. rewrite !lookup_ge_None_2 by lia. reflexivity.
Qed.

Lemma upd_upd board p v w :
  wf board -> on_board p -> upd (upd board p v) p w = upd board p w.
Proof.
  intros Hwf Hp. apply board_ext; auto using upd_wf.
  intros q Hq. destruct (decide (p = q)) as [<-|Hne].
  - rewrite !cell_upd_eq; auto using upd_wf.
  - rewrite !cell_upd_ne; auto.
Qed.

Lemma upd_same board p :
  wf board -> on_board p -> upd board p (cell board p) = board.
Proof.
  intros Hwf Hp. apply board_ext; auto using upd_wf.
  intros q Hq. destruct (decide (p = q)) as [<-|Hne].
  - rewrite cell_upd_eq; auto.
  - rewrite cell_upd_ne; auto.
Qed.

(** Writing a value into an empty cell and writing 0 back restores the
    board. *)
Lemma upd_undo board p v :
  wf board -> on_board p -> cell board p = 0 -> upd (upd board p v) p 0 = board.
Proof.
  intros Hwf Hp H0. rewrite upd_upd by done. rewrite <- H0. by apply upd_same.
Qed.

(** ** The empty-cell locator *)

Lemma all_cells_index :
  all_cells = (fun i => (i / 9, i mod 9)%nat) <$> seq 0 81.
Proof. reflexivity. Qed.

Lemma all_cells_lookup i p :
  all_cells !! i = Some p <-> on_board p /\ i = (9 * p.1 + p.2)%nat.
Proof.
  rewrite all_cells_index, list_lookup_fmap. unfold on_board. split.
  - intros H. destruct (seq 0 81 !! i) as [j|] eqn:Hj; [|done].
    apply lookup_seq in Hj as [Hj Hlt]. assert (j = i) as -> by lia.
    change (Some (i / 9, i mod 9)%nat = Some p) in H.
    assert (p = (i / 9, i mod 9)%nat) as -> by congruence.
    cbn [fst snd]. lia.
  - intros [[Hr Hc] ->]. rewrite lookup_seq_lt by lia. cbn [fmap option_fmap option_map].
    destruct p as [r c]. cbn [fst snd] in *. f_equal. f_equal; lia.
Qed.

Lemma find_empty_from_spec board cells :
  wf board -> (forall p, p ∈ cells -> on_board p) ->
  match find_empty_from board cells with
  | Ok (Some p) =>
      exists i, cells !! i = Some p /\ cell board p = 0 /\
        forall j q, (j < i)%nat -> cells !! j = Some q -> cell board q <> 0
  | Ok None => forall q, q ∈ cells -> cell board q <> 0
  | _ => False
  end.
Proof.
  intros Hwf. induction cells as [|[r c] cells IH]; intros Hin; simpl.
  - intros q Hq. by apply not_elem_of_nil in Hq.
  - rewrite get_cell by (auto; apply Hin; left). simpl.
    destruct (Z.eqb_spec (cell board (r, c)) 0) as [H0|Hn0].
    + exists 0%nat. repeat split; auto. intros; lia.
    + specialize (IH (fun p Hp => Hin p (list_elem_of_further _ _ _ Hp))).
      destruct (find_empty_from board cells) as [[p|]| |]; try done.
      * destruct IH as (i & Hi & H0 & Hbefore). exists (S i).
        repeat split; auto. intros [|j] q Hj Hq; simpl in Hq.
        -- by injection Hq as <-.
        -- eapply Hbefore; [|done]. lia.
      * intros q [->|Hq]%elem_of_cons; auto.
Qed.

Lemma find_empty_spec board :
  wf board ->
  match find_empty board with
  | Ok (Some p) =>
      on_board p /\ cell board p = 0 /\
      forall q, on_board q -> before q p -> cell board q <> 0
  | Ok None => full board
  | _ => False
  end.
Proof.
  intros Hwf. unfold find_empty.
  pose proof (find_empty_from_spec board all_cells Hwf) as H.
  specialize (H (fun p Hp => proj1 (elem_of_all_cells p) Hp)).
  destruct (find_empty_from board all_cells) as [[p|]| |]; try done.
  - destruct H as (i & Hi & H0 & Hbefore).
    apply all_cells_lookup in Hi as [Hp ->]. split; [done|]. split; [done|].
    intros q Hq Hlt. eapply (Hbefore _ q Hlt). by apply all_cells_lookup.
  - intros q Hq. apply H. by apply elem_of_all_cells.
Qed.

(** ** The constraint checker *)

Lemma any_eq_spec board num cells :
  wf board -> (forall p, p ∈ cells -> on_board p) ->
  any_eq board num cells = Ok (existsb (fun p => cell board p =? num) cells).
Proof.
  intros Hwf. induction cells as [|[r c] cells IH]; intros Hin; simpl; [done|].
  rewrite get_cell by (auto; apply Hin; left). simpl.
  destruct (cell board (r, c) =? num); [done|].
  apply IH. intros p Hp. apply Hin. by right.
Qed.

Lemma row_values board r row :
  board !! r = Some row -> length row = 9%nat ->
  row = values board (row_cells r).
Proof.
  intros Hrow Hlen. apply list_eq. intros c.
  unfold values. rewrite list_lookup_fmap.
  destruct (decide (c < 9)%nat) as [Hc|Hc].
  - assert (row_cells r !! c = Some (r, c)) as ->.
    { unfold row_cells, block. simpl.
      do 9 (destruct c as [|c]; [done|]). lia. }
    simpl. unfold cell. simpl. rewrite Hrow. simpl.
    destruct (lookup_lt_is_Some_2 row c) as [v ->]; [lia|]. done.
  - rewrite lookup_ge_None_2 by lia.
    rewrite lookup_ge_None_2; [done|].
    unfold row_cells, block. simpl. lia.
Qed.

Lemma existsb_values board num cells :
  existsb (Z.eqb num) (values board cells) =
  existsb (fun q => cell board q =? num) cells.
Proof.
  induction cells as [|q l IH]; simpl; [done|].
  rewrite IH. by rewrite (Z.eqb_sym num).
Qed.

Lemma is_safe_safe board r c num :
  wf board -> on_board (r, c) ->
  is_safe board r c num = Ok (safe board (r, c) num).
Proof.
  intros Hwf [Hr Hc]. simpl in *.
  destruct (wf_lookup board r Hwf Hr) as (row & Hrow & Hlen).
  unfold is_safe, getitem, safe. cbn [fst snd]. rewrite Hrow.
  cbn [mbind result_bind rbind].
  rewrite !existsb_app.
  rewrite (row_values board r row Hrow Hlen), existsb_values.
  destruct (existsb _ (row_cells r)); [reflexivity|]. cbn [orb].
  rewrite (any_eq_spec board num (block 0 9 c 1)); auto.
  2:{ intros p Hp. apply elem_of_block in Hp. unfold on_board. lia. }
  cbn [mbind result_bind rbind]. fold (col_cells c).
  destruct (existsb _ (col_cells c)); [reflexivity|]. cbn [orb].
  rewrite any_eq_spec; auto.
  2:{ intros p Hp. apply elem_of_block in Hp. unfold on_board. lia. }
  cbn [mbind result_bind rbind]. destruct (existsb _ _); reflexivity.
Qed.

Lemma same_unit_cells p q :
  on_board p -> on_board q ->
  q ∈ row_cells p.1 ++ col_cells p.2 ++
       block (3 * (p.1 / 3)) 3 (3 * (p.2 / 3)) 3 <->
  same_unit p q.
Proof.
  intros [Hpr Hpc] [Hqr Hqc]. unfold same_unit, row_cells, col_cells.
  rewrite !elem_of_app, !elem_of_block. lia.
Qed.

Lemma unit_cells_on_board p q :
  on_board p ->
  q ∈ row_cells p.1 ++ col_cells p.2 ++
       block (3 * (p.1 / 3)) 3 (3 * (p.2 / 3)) 3 ->
  on_board q.
Proof.
  intros [Hpr Hpc]. unfold on_board, row_cells, col_cells.
  rewrite !elem_of_app, !elem_of_block. lia.
Qed.

Lemma safe_true board p num :
  on_board p ->
  safe board p num = true <->
  forall q, on_board q -> same_unit p q -> cell board q <> num.
Proof.
  intros Hp. unfold safe. rewrite negb_true_iff. split.
  - intros Hex q Hq Hunit Heq.
    assert (existsb (fun q => cell board q =? num)
      (row_cells p.1 ++ col_cells p.2 ++
       block (3 * (p.1 / 3)) 3 (3 * (p.2 / 3)) 3) = true); [|congruence].
    apply existsb_exists. exists q. split; [|by apply Z.eqb_eq].
    apply list_elem_of_In. by apply same_unit_cells.
  - intros Hall. apply not_true_is_false. intros Hex.
    apply existsb_exists in Hex as (q & Hq & Heq).
    apply list_elem_of_In in Hq. apply Z.eqb_eq in Heq.
    pose proof (unit_cells_on_board p q Hp Hq) as Hqb.
    apply (Hall q Hqb); [|done]. by apply same_unit_cells.
Qed.

Lemma safe_false board p num :
  on_board p ->
  safe board p num = false <->
  exists q, on_board q /\ same_unit p q /\ cell board q = num.
Proof.
  intros Hp. unfold safe. rewrite negb_false_iff, existsb_exists. split.
  - intros (q & Hq & Heq). apply list_elem_of_In in Hq. apply Z.eqb_eq in Heq.
    pose proof (unit_cells_on_board p q Hp Hq) as Hqb.
    exists q. split; [done|]. split; [|done]. by apply same_unit_cells.
  - intros (q & Hq & Hunit & Heq). exists q. split; [|by apply Z.eqb_eq].
    apply list_elem_of_In. by apply same_unit_cells.
Qed.

(** ** Rows, columns and boxes *)

Lemma units_shape u :
  u ∈ units ->
  length u = 9%nat /\ NoDup u /\
  (forall p, p ∈ u -> on_board p) /\
  (forall p q, p ∈ u -> q ∈ u -> same_unit p q).
Proof.
  revert u. apply Forall_forall.
  assert (Forall (fun u => length u = 9%nat /\ NoDup u /\
    Forall (fun p => on_board p /\ Forall (fun q => same_unit p q) u) u) units)
    as H by (apply (bool_decide_unpack _); vm_compute; exact I).
  eapply Forall_impl; [exact H|]. intros u (Hlen & Hnd & Hall).
  rewrite Forall_forall in Hall. repeat split; auto.
  - by apply Hall.
  - by apply Hall.
  - intros p q Hp Hq. destruct (Hall p Hp) as [_ Hq'].
    rewrite Forall_forall in Hq'. by apply Hq'.
Qed.

Lemma same_unit_units p q :
  on_board p -> on_board q -> same_unit p q ->
  exists u, u ∈ units /\ p ∈ u /\ q ∈ u.
Proof.
  intros [Hpr Hpc] [Hqr Hqc] [Hrow|[Hcol|[Hbr Hbc]]].
  - exists (row_cells p.1). split.
    + unfold units. apply elem_of_app. left.
      apply list_elem_of_fmap_2, elem_of_seq. lia.
    + unfold row_cells. rewrite !elem_of_block. lia.
  - exists (col_cells p.2). split.
    + unfold units. rewrite !elem_of_app. right. left.
      apply list_elem_of_fmap_2, elem_of_seq. lia.
    + unfold col_cells. rewrite !elem_of_block. lia.
  - exists (box_cells (3 * (p.1 / 3) + p.2 / 3)). split.
    + unfold units. rewrite !elem_of_app. right. right.
      apply list_elem_of_fmap_2, elem_of_seq. lia.
    + unfold box_cells. rewrite !elem_of_block. lia.
Qed.

Lemma elem_of_rangeZ v : v ∈ rangeZ 1 9 <-> 1 <= v <= 9.
Proof.
  unfold rangeZ. rewrite list_elem_of_In, in_map_iff. split.
  - intros (i & <- & Hi). apply in_seq in Hi. lia.
  - intros Hv. exists (Z.to_nat (v - 1)). split; [lia|]. apply in_seq. lia.
Qed.

Lemma occurrences_perm v l k : l ≡ₚ k -> occurrences v l = occurrences v k.
Proof. intros H. unfold occurrences. by rewrite H. Qed.

Lemma each_once_perm l :
  length l = 9%nat -> each_once l = true <-> l ≡ₚ rangeZ 1 9.
Proof.
  intros Hlen. split.
  - intros H. symmetry. apply submseteq_length_Permutation.
    + apply NoDup_submseteq.
      * apply (bool_decide_unpack _). vm_compute. exact I.
      * intros v Hv. unfold each_once in H. rewrite forallb_forall in H.
        specialize (H v (proj1 (list_elem_of_In _ _) Hv)).
        apply Nat.eqb_eq in H. unfold occurrences in H.
        destruct (filter (fun x => x = v) l) as [|x f] eqn:Hf; [done|].
        assert (x ∈ filter (fun x => x = v) l) as Hx by (rewrite Hf; left).
        apply list_elem_of_filter in Hx as [-> Hx]. done.
    + rewrite Hlen. done.
  - intros H. unfold each_once. apply forallb_forall. intros v Hv.
    rewrite (occurrences_perm v _ _ H). revert v Hv.
    apply forallb_forall. reflexivity.
Qed.

Lemma valid_units board :
  valid board <->
  forall u, u ∈ units -> values board u ≡ₚ rangeZ 1 9.
Proof.
  assert (forall u, u ∈ units ->
    each_once (values board u) = true <-> values board u ≡ₚ rangeZ 1 9) as Hperm.
  { intros u Hu. apply each_once_perm. unfold values. rewrite length_fmap.
    by apply units_shape. }
  unfold valid, validb. rewrite forallb_forall. split.
  - intros H u Hu. apply Hperm; [done|].
    unfold units in Hu. rewrite !elem_of_app, !list_elem_of_fmap in Hu.
    destruct Hu as [(k & -> & Hk)|[(k & -> & Hk)|(k & -> & Hk)]];
      apply list_elem_of_In, H in Hk; rewrite !andb_true_iff in Hk; tauto.
  - intros H k Hk. apply list_elem_of_In in Hk.
    rewrite !andb_true_iff. repeat split; apply Hperm; try apply H;
      unfold units; rewrite !elem_of_app, !list_elem_of_fmap; eauto.
Qed.

Lemma NoDup_fmap_inj_on {A B} (f : A -> B) (l : list A) x y :
  NoDup (f <$> l) -> x ∈ l -> y ∈ l -> f x = f y -> x = y.
Proof.
  induction l as [|a l IH]; simpl; intros Hnd Hx Hy Heq.
  - by apply not_elem_of_nil in Hx.
  - apply NoDup_cons in Hnd as [Hnotin Hnd].
    apply elem_of_cons in Hx as [->|Hx]; apply elem_of_cons in Hy as [->|Hy];
      auto.
    + exfalso. apply Hnotin. rewrite Heq. by apply list_elem_of_fmap_2.
    + exfalso. apply Hnotin. rewrite <- Heq. by apply list_elem_of_fmap_2.
Qed.

(** In a valid board every cell holds a digit 1..9 and peers differ. *)
Lemma valid_digit board p :
  valid board -> on_board p -> 1 <= cell board p <= 9.
Proof.
  intros Hv Hp. apply elem_of_rangeZ.
  destruct (same_unit_units p p Hp Hp) as (u & Hu & Hpu & _).
  { by left. }
  rewrite valid_units in Hv. rewrite <- (Hv u Hu).
  by apply list_elem_of_fmap_2.
Qed.

Lemma valid_peers board p q :
  valid board -> on_board p -> on_board q -> peers p q ->
  cell board p <> cell board q.
Proof.
  intros Hv Hp Hq [Hne Hunit] Heq. apply Hne.
  destruct (same_unit_units p q Hp Hq Hunit) as (u & Hu & Hpu & Hqu).
  rewrite valid_units in Hv. specialize (Hv u Hu).
  eapply (NoDup_fmap_inj_on (cell board) u); eauto.
  fold (values board u). rewrite Hv.
  apply (bool_decide_unpack _). vm_compute. exact I.
Qed.

Lemma valid_consistent board : valid board -> consistent board.
Proof. intros Hv p q Hp Hq Hpeers _. by apply valid_peers. Qed.

Lemma valid_full board : valid board -> full board.
Proof. intros Hv p Hp. pose proof (valid_digit board p Hv Hp). lia. Qed.

(** A full, consistent board of digits satisfies the invariant. *)
Lemma full_consistent_valid board :
  digits board -> full board -> consistent board -> valid board.
Proof.
  intros Hd Hf Hc. apply valid_units. intros u Hu.
  destruct (units_shape u Hu) as (Hlen & Hnd & Hon & Hsame).
  apply submseteq_length_Permutation.
  - apply NoDup_submseteq.
    + apply NoDup_fmap_2_strong; [|done].
      intros p q Hp Hq Heq. destruct (decide (p = q)) as [|Hne]; [done|].
      exfalso. apply (Hc p q); auto. split; auto.
    + intros v Hv. apply list_elem_of_fmap in Hv as (p & -> & Hp).
      apply elem_of_rangeZ. specialize (Hd p (Hon p Hp)).
      specialize (Hf p (Hon p Hp)). lia.
  - unfold values. rewrite length_fmap, Hlen. done.
Qed.

(** ** Completions *)

Lemma completion_full g :
  wf g -> full g -> forall s, completion g s <-> s = g /\ valid g.
Proof.
  intros Hwf Hfull s. split.
  - intros (Hwfs & Hv & Hagree).
    assert (s = g) as ->; [|by split].
    apply board_ext; auto.
  - intros [-> Hv]. split; [done|]. split; [done|]. done.
Qed.

Lemma completion_consistent g s : completion g s -> consistent g.
Proof.
  intros (Hwf & Hv & Hagree) p q Hp Hq Hpeers Hn0 Heq.
  apply (valid_peers s p q Hv Hp Hq Hpeers).
  rewrite (Hagree p Hp Hn0). rewrite Heq.
  symmetry. apply Hagree; auto. congruence.
Qed.

Lemma completion_digits g s : completion g s -> digits g.
Proof.
  intros (Hwf & Hv & Hagree) p Hp.
  destruct (decide (cell g p = 0)) as [->|Hn0]; [lia|].
  rewrite <- (Hagree p Hp Hn0). pose proof (valid_digit s p Hv Hp). lia.
Qed.

(** Filling an empty cell: the completions of the new board are the
    completions of the old one that hold the new value there. *)
Lemma completion_upd g p v s :
  wf g -> on_board p -> cell g p = 0 -> v <> 0 ->
  completion (upd g p v) s <-> completion g s /\ cell s p = v.
Proof.
  intros Hwf Hp H0 Hv. split.
  - intros (Hwfs & Hvs & Hagree). split.
    + split; [done|]. split; [done|]. intros q Hq Hn0.
      assert (p <> q) as Hne by congruence.
      rewrite <- (cell_upd_ne g p q v Hne). apply Hagree; auto.
      by rewrite cell_upd_ne.
    + rewrite (Hagree p Hp) by (by rewrite cell_upd_eq).
      by apply cell_upd_eq.
  - intros [(Hwfs & Hvs & Hagree) Hsp]. split; [done|]. split; [done|].
    intros q Hq Hn0. destruct (decide (p = q)) as [<-|Hne].
    + by rewrite cell_upd_eq.
    + rewrite cell_upd_ne in * by done. by apply Hagree.
Qed.

(** The value a completion holds in an empty cell passes the check. *)
Lemma completion_safe g p s :
  on_board p -> cell g p = 0 -> completion g s ->
  safe g p (cell s p) = true.
Proof.
  intros Hp H0 (Hwfs & Hvs & Hagree). apply safe_true; [done|].
  intros q Hq Hunit Heq.
  pose proof (valid_digit s p Hvs Hp) as Hd.
  assert (p <> q) as Hne by (intros ->; lia).
  apply (valid_peers s p q Hvs Hp Hq); [by split|].
  rewrite <- Heq. symmetry. apply Hagree; auto. lia.
Qed.

(** Consistency is kept by writing a checked value into an empty cell. *)
Lemma consistent_upd g p v :
  wf g -> on_board p -> cell g p = 0 -> safe g p v = true ->
  consistent g -> consistent (upd g p v).
Proof.
  intros Hwf Hp H0 Hsafe Hc a b Ha Hb [Hne Hunit] Hn0.
  rewrite safe_true in Hsafe by done.
  destruct (decide (p = a)) as [<-|Hpa]; destruct (decide (p = b)) as [<-|Hpb].
  - done.
  - rewrite cell_upd_eq, cell_upd_ne by done.
    intros Heq. by apply (Hsafe b Hb Hunit).
  - rewrite cell_upd_eq, cell_upd_ne by done.
    intros Heq. apply (Hsafe a Ha); [|done].
    unfold same_unit in *. intuition congruence.
  - rewrite !cell_upd_ne in * by done. apply Hc; auto. by split.
Qed.

Lemma digits_upd g p v :
  wf g -> on_board p -> 0 <= v <= 9 -> digits g -> digits (upd g p v).
Proof.
  intros Hwf Hp Hv Hd q Hq. destruct (decide (p = q)) as [<-|Hne].
  - by rewrite cell_upd_eq.
  - rewrite cell_upd_ne by done. by apply Hd.
Qed.

(** ** The solver *)

Lemma filled_upto_upd g p v :
  wf g -> on_board p -> v <> 0 ->
  (forall q, on_board q -> before q p -> cell g q <> 0) ->
  filled_upto (upd g p v) (S (9 * p.1 + p.2)).
Proof.
  intros Hwf Hp Hv Hbefore q Hq Hlt.
  destruct (decide (p = q)) as [<-|Hne].
  - by rewrite cell_upd_eq.
  - rewrite cell_upd_ne by done. apply Hbefore; [done|].
    unfold before. destruct Hp, Hq.
    assert (9 * q.1 + q.2 <> 9 * p.1 + p.2)%nat; [|lia].
    intros Heq. apply Hne. destruct p, q. simpl in *. f_equal; lia.
Qed.

Lemma extends_upd g p v g' :
  wf g -> on_board p -> cell g p = 0 -> extends (upd g p v) g' -> extends g g'.
Proof.
  intros Hwf Hp H0 Hext q Hq Hn0.
  assert (p <> q) as Hne by congruence.
  rewrite <- (cell_upd_ne g p q v Hne). apply Hext; [done|].
  by rewrite cell_upd_ne.
Qed.

Lemma solve_loop_run rec p nums g :
  wf g -> on_board p -> cell g p = 0 ->
  (forall v, v ∈ nums -> 1 <= v <= 9) ->
  (forall v, 1 <= v <= 9 ->
     exists b g', rec (upd g p v) = Ok (b, g') /\ solve_post (upd g p v) b g') ->
  exists b g', solve_loop rec p.1 p.2 nums g = Ok (b, g') /\ solve_post g b g'.
Proof.
  intros Hwf Hp H0 Hnums Hrec. induction nums as [|v nums IH]; simpl.
  - by exists false, g.
  - assert (1 <= v <= 9) as Hv by (apply Hnums; left).
    specialize (IH (fun w Hw => Hnums w (list_elem_of_further _ _ _ Hw))).
    rewrite is_safe_safe by (destruct p; done).
    cbn [mbind result_bind rbind].
    replace (p.1, p.2) with p by (by destruct p).
    destruct (safe g p v) eqn:Hsafe; [|done].
    rewrite setitem_upd by (destruct p; done).
    cbn [mbind result_bind rbind].
    replace (p.1, p.2) with p by (by destruct p).
    destruct (Hrec v Hv) as (b & g' & -> & Hpost).
    cbn [mbind result_bind rbind]. destruct b.
    + exists true, g'. split; [done|].
      destruct Hpost as (Hwf' & Hfull & Hext & Hd & Hc).
      split; [done|]. split; [done|]. split; [by eapply extends_upd|].
      split.
      * intros Hdg. apply Hd, digits_upd; auto. lia.
      * intros Hcg. by apply Hc, consistent_upd.
    + simpl in Hpost. subst g'.
      rewrite setitem_upd by (destruct p; auto using upd_wf).
      cbn [mbind result_bind rbind].
      replace (p.1, p.2) with p by (by destruct p).
      rewrite upd_undo by done. exact IH.
Qed.

Lemma solve_backtracking_fuel_S fuel g :
  solve_backtracking_fuel (S fuel) g =
  spot ← find_empty g;
  match spot with
  | None => Ok (true, g)
  | Some (r, c) => solve_loop (solve_backtracking_fuel fuel) r c (rangeZ 1 9) g
  end.
Proof. reflexivity. Qed.

Lemma solve_run fuel n g :
  wf g -> filled_upto g n -> (n <= 81 <= fuel + n - 1)%nat ->
  exists b g', solve_backtracking_fuel fuel g = Ok (b, g') /\ solve_post g b g'.
Proof.
  revert n g. induction fuel as [|fuel IH]; intros n g Hwf Hfilled Hfuel.
  - lia.
  - rewrite solve_backtracking_fuel_S.
    pose proof (find_empty_spec g Hwf) as Hspec.
    destruct (find_empty g) as [[[r c]|]| |]; try done;
      cbn [mbind result_bind rbind].
    + destruct Hspec as (Hp & H0 & Hbefore).
      apply (solve_loop_run _ (r, c)); auto.
      * intros v. apply elem_of_rangeZ.
      * intros v Hv. apply (IH (S (9 * r + c))).
        -- by apply upd_wf.
        -- apply (filled_upto_upd g (r, c)); auto. lia.
        -- assert (n <= 9 * r + c)%nat.
           { apply Nat.nlt_ge. intros Hlt. by apply (Hfilled (r, c) Hp). }
           destruct Hp. simpl in *. lia.
    + exists true, g. split; [done|]. simpl.
      split; [done|]. split; [done|]. split; [by intros p|]. done.
Qed.

(** ** Row-major reading and the lexicographic order *)

Lemma wf_tabulate g :
  wf g -> g = (fun r => values g (row_cells r)) <$> seq 0 9.
Proof.
  intros Hwf. apply list_eq. intros r. rewrite list_lookup_fmap.
  destruct (decide (r < 9)%nat) as [Hr|Hr].
  - destruct (wf_lookup g r Hwf Hr) as (row & Hrow & Hlen).
    rewrite Hrow, lookup_seq_lt by done. simpl. f_equal.
    by apply row_values.
  - destruct Hwf as [Hlen _].
    rewrite !lookup_ge_None_2; [done| |lia]. rewrite length_seq. lia.
Qed.

Lemma flatten_cells g : wf g -> flatten g = cell g <$> all_cells.
Proof.
  intros Hwf. unfold flatten.
  transitivity (concat ((fun r => values g (row_cells r)) <$> seq 0 9)).
  - f_equal. by apply wf_tabulate.
  - reflexivity.
Qed.

Lemma lex_le_refl l : lex_le l l.
Proof. induction l; [apply lex_le_nil|by apply lex_le_eq]. Qed.

Lemma lex_le_fmap {A} (f g : A -> Z) (l : list A) i x :
  l !! i = Some x ->
  (forall j y, (j < i)%nat -> l !! j = Some y -> f y = g y) ->
  f x < g x ->
  lex_le (f <$> l) (g <$> l).
Proof.
  revert i. induction l as [|a l IH]; intros i Hi Hbefore Hlt; [done|].
  destruct i as [|i]; simpl in *.
  - injection Hi as ->. by apply lex_le_lt.
  - rewrite (Hbefore 0%nat a) by (done || lia). apply lex_le_eq.
    apply (IH i); auto. intros j y Hj Hy. apply (Hbefore (S j)); [lia|done].
Qed.

Lemma lex_le_boards a b p :
  wf a -> wf b -> on_board p ->
  (forall q, on_board q -> before q p -> cell a q = cell b q) ->
  cell a p < cell b p ->
  lex_le (flatten a) (flatten b).
Proof.
  intros Hwfa Hwfb Hp Hbefore Hlt. rewrite !flatten_cells by done.
  apply (lex_le_fmap _ _ _ (9 * p.1 + p.2)%nat p); auto.
  - by apply all_cells_lookup.
  - intros j q Hj Hq. apply all_cells_lookup in Hq as [Hq ->].
    by apply Hbefore.
Qed.

Lemma rangeZ_S lo k : rangeZ lo (S k) = lo :: rangeZ (lo + 1) k.
Proof.
  unfold rangeZ. simpl. f_equal; [lia|].
  rewrite <- seq_shift, map_map. apply map_ext. intros; lia.
Qed.

(** ** The solver finds the first completion *)

Lemma solve_loop_finds rec p g s k lo :
  wf g -> on_board p -> cell g p = 0 ->
  (forall q, on_board q -> before q p -> cell g q <> 0) ->
  completion g s ->
  1 <= lo -> lo + Z.of_nat k <= 10 -> lo <= cell s p < lo + Z.of_nat k ->
  (forall v, 1 <= v <= 9 ->
     exists b g', rec (upd g p v) = Ok (b, g') /\ solve_post (upd g p v) b g') ->
  (exists g', rec (upd g p (cell s p)) = Ok (true, g') /\
     lex_le (flatten g') (flatten s)) ->
  exists g', solve_loop rec p.1 p.2 (rangeZ lo k) g = Ok (true, g') /\
    lex_le (flatten g') (flatten s).
Proof.
  intros Hwf Hp H0 Hbefore Hcompl Hlo Hhi Hs Hrec Hfind.
  revert lo Hlo Hhi Hs. induction k as [|k IH]; intros lo Hlo Hhi Hs; [lia|].
  rewrite rangeZ_S. cbn [solve_loop].
  rewrite is_safe_safe by (destruct p; done).
  cbn [mbind result_bind rbind].
  replace (p.1, p.2) with p by (by destruct p).
  pose proof (completion_safe g p s Hp H0 Hcompl) as Hsafe_s.
  destruct (safe g p lo) eqn:Hsafe.
  - rewrite setitem_upd by (destruct p; done).
    cbn [mbind result_bind rbind].
    replace (p.1, p.2) with p by (by destruct p).
    destruct (decide (lo = cell s p)) as [->|Hne].
    + destruct Hfind as (g' & -> & Hlex). cbn [mbind result_bind rbind].
      by exists g'.
    + destruct (Hrec lo ltac:(lia)) as (b & g1 & -> & Hpost).
      cbn [mbind result_bind rbind]. destruct b.
      * exists g1. split; [done|].
        destruct Hpost as (Hwf1 & _ & Hext & _). destruct Hcompl as (Hwfs & _ & Hagree).
        apply (lex_le_boards g1 s p); auto.
        -- intros q Hq Hqp. assert (p <> q) as Hpq.
           { intros ->. unfold before in Hqp. lia. }
           rewrite (Hext q Hq) by (rewrite cell_upd_ne by done; auto).
           rewrite cell_upd_ne by done. symmetry. apply Hagree; auto.
        -- rewrite (Hext p Hp) by (rewrite cell_upd_eq by done; lia).
           rewrite cell_upd_eq by done. lia.
      * simpl in Hpost. subst g1.
        rewrite setitem_upd by (destruct p; auto using upd_wf).
        cbn [mbind result_bind rbind].
        replace (p.1, p.2) with p by (by destruct p).
        rewrite upd_undo by done. apply IH; lia.
  - apply IH; try lia.
    assert (lo <> cell s p) by congruence. lia.
Qed.

Lemma solve_finds fuel n g s :
  wf g -> filled_upto g n -> (n <= 81 <= fuel + n - 1)%nat ->
  completion g s ->
  exists g', solve_backtracking_fuel fuel g = Ok (true, g') /\
    lex_le (flatten g') (flatten s).
Proof.
  revert n g. induction fuel as [|fuel IH]; intros n g Hwf Hfilled Hfuel Hcompl.
  - lia.
  - rewrite solve_backtracking_fuel_S.
    pose proof (find_empty_spec g Hwf) as Hspec.
    destruct (find_empty g) as [[[r c]|]| |]; try done;
      cbn [mbind result_bind rbind].
    + destruct Hspec as (Hp & H0 & Hbefore).
      assert (n <= 9 * r + c <= 80)%nat as Hn.
      { split; [|destruct Hp; simpl in *; lia].
        apply Nat.nlt_ge. intros Hlt. by apply (Hfilled (r, c) Hp). }
      assert (1 <= cell s (r, c) <= 9) as Hd.
      { destruct Hcompl as (_ & Hv & _). by apply valid_digit. }
      apply (solve_loop_finds _ (r, c) g s 9 1); auto; try lia.
      * intros v Hv. apply (solve_run fuel (S (9 * r + c))).
        -- by apply upd_wf.
        -- apply (filled_upto_upd g (r, c)); auto. lia.
        -- lia.
      * apply (IH (S (9 * r + c))).
        -- by apply upd_wf.
        -- apply (filled_upto_upd g (r, c)); auto. lia.
        -- lia.
        -- apply completion_upd; auto. lia.
    + exists g. split; [done|].
      apply completion_full in Hcompl as [-> _]; auto. apply lex_le_refl.
Qed.

(** ** The solution counter *)

Lemma count_solutions_fuel_S fuel g limit :
  count_solutions_fuel (S fuel) g limit =
  spot ← find_empty g;
  match spot with
  | None => Ok (1, g)
  | Some (r, c) =>
      count_loop (fun b => count_solutions_fuel fuel b limit) limit
        r c (rangeZ 1 9) 0 g
  end.
Proof. reflexivity. Qed.

Lemma tally_nonneg l p nums : 0 <= tally l p nums.
Proof. induction nums; simpl; lia. Qed.

Lemma tally_cons l p nums s :
  NoDup nums ->
  tally (s :: l) p nums =
  (if decide (cell s p ∈ nums) then 1 else 0) + tally l p nums.
Proof.
  induction nums as [|v nums IH]; intros Hnd; cbn [tally foldr].
  - destruct (decide (cell s p ∈ [])) as [Hin|_]; [|done].
    by apply not_elem_of_nil in Hin.
  - apply NoDup_cons in Hnd as [Hv Hnd]. fold (tally (s :: l) p nums).
    fold (tally l p nums). rewrite IH by done. rewrite filter_cons.
    destruct (decide (cell s p = v)) as [Heq|Hne];
      destruct (decide (cell s p ∈ nums)) as [Hin|Hnotin];
      destruct (decide (cell s p ∈ v :: nums)) as [Hin'|Hnotin'];
      cbn [length]; try lia; exfalso.
    + apply Hv. by rewrite <- Heq.
    + apply Hv. by rewrite <- Heq.
    + apply Hnotin'. rewrite Heq. left.
    + apply Hnotin'. by right.
    + apply elem_of_cons in Hin' as [?|?]; done.
Qed.

Lemma tally_all l p nums :
  NoDup nums -> (forall s, s ∈ l -> cell s p ∈ nums) ->
  tally l p nums = Z.of_nat (length l).
Proof.
  intros Hnd. induction l as [|s l IH]; intros Hall.
  - clear. induction nums as [|v nums IHn]; [done|].
    cbn [tally foldr]. fold (tally [] p nums). by rewrite IHn.
  - rewrite tally_cons by done. rewrite decide_True by (apply Hall; left).
    rewrite IH; [simpl length; lia|]. intros s' Hs'. apply Hall. by right.
Qed.

Lemma count_loop_spec rec limit p g l nums acc :
  wf g -> on_board p -> cell g p = 0 -> 0 <= acc ->
  (forall v, v ∈ nums -> 1 <= v <= 9) ->
  (forall v, 1 <= v <= 9 -> safe g p v = true ->
     exists k, rec (upd g p v) = Ok (k, upd g p v) /\
       0 <= k <= tally l p [v] /\ (limit <= k \/ k = tally l p [v])) ->
  (forall v, safe g p v = false -> tally l p [v] = 0) ->
  exists k, count_loop rec limit p.1 p.2 nums acc g = Ok (k, g) /\
    acc <= k <= acc + tally l p nums /\
    (limit <= k \/ k = acc + tally l p nums).
Proof.
  intros Hwf Hp H0 Hacc Hnums Hrec Hunsafe. revert acc Hacc.
  induction nums as [|v nums IH]; intros acc Hacc; cbn [count_loop].
  - exists acc. simpl. split; [done|]. lia.
  - assert (1 <= v <= 9) as Hv by (apply Hnums; left).
    specialize (IH (fun w Hw => Hnums w (list_elem_of_further _ _ _ Hw))).
    assert (tally l p (v :: nums) = tally l p [v] + tally l p nums) as ->
      by (simpl; lia).
    pose proof (tally_nonneg l p nums) as Hnn.
    rewrite is_safe_safe by (destruct p; done).
    cbn [mbind result_bind rbind].
    replace (p.1, p.2) with p by (by destruct p).
    destruct (safe g p v) eqn:Hsafe.
    + rewrite setitem_upd by (destruct p; done).
      cbn [mbind result_bind rbind].
      replace (p.1, p.2) with p by (by destruct p).
      destruct (Hrec v Hv Hsafe) as (k & -> & Hk & Hklim).
      cbn [mbind result_bind rbind].
      rewrite setitem_upd by (destruct p; auto using upd_wf).
      cbn [mbind result_bind rbind].
      replace (p.1, p.2) with p by (by destruct p).
      rewrite upd_undo by done.
      destruct (Z.leb_spec limit (acc + k)) as [Hge|Hlt].
      * exists (acc + k). split; [done|]. lia.
      * destruct (IH (acc + k) ltac:(lia)) as (k' & -> & Hk' & Hk'lim).
        exists k'. split; [done|]. lia.
    + rewrite (Hunsafe v Hsafe).
      destruct (IH acc Hacc) as (k' & -> & Hk' & Hk'lim).
      exists k'. split; [done|]. lia.
Qed.

Lemma singleton_list {A} (l : list A) x :
  NoDup l -> (forall y, y ∈ l <-> y = x) -> length l = 1%nat.
Proof.
  intros Hnd Hall. destruct l as [|a l].
  - exfalso. eapply not_elem_of_nil. by apply (Hall x).
  - destruct l as [|b l]; [done|]. exfalso.
    apply NoDup_cons in Hnd as [Hnotin _]. apply Hnotin.
    assert (a = x) as -> by (apply Hall; left).
    assert (b = x) as -> by (apply Hall; right; left). left.
Qed.

Lemma filter_nil_length {A} (P : A -> Prop) `{forall x, Decision (P x)} l :
  (forall x, x ∈ l -> ~ P x) -> length (filter P l) = 0%nat.
Proof.
  intros Hall. destruct (filter P l) as [|x f] eqn:Hf; [done|]. exfalso.
  assert (x ∈ filter P l) as Hx by (rewrite Hf; left).
  apply list_elem_of_filter in Hx as [HP Hx]. by apply (Hall x).
Qed.

Lemma count_spec fuel limit n g l :
  wf g -> filled_upto g n -> (n <= 81 <= fuel + n - 1)%nat ->
  digits g -> consistent g ->
  NoDup l -> (forall s, s ∈ l <-> completion g s) ->
  exists k, count_solutions_fuel fuel g limit = Ok (k, g) /\
    0 <= k <= Z.of_nat (length l) /\
    (limit <= k \/ k = Z.of_nat (length l)).
Proof.
  revert n g l. induction fuel as [|fuel IH];
    intros n g l Hwf Hfilled Hfuel Hd Hc Hnd Hl.
  - lia.
  - rewrite count_solutions_fuel_S.
    pose proof (find_empty_spec g Hwf) as Hspec.
    destruct (find_empty g) as [[[r c]|]| |]; try done;
      cbn [mbind result_bind rbind].
    + destruct Hspec as (Hp & H0 & Hbefore).
      assert (n <= 9 * r + c <= 80)%nat as Hn.
      { split; [|destruct Hp; simpl in *; lia].
        apply Nat.nlt_ge. intros Hlt. by apply (Hfilled (r, c) Hp). }
      rewrite <- (tally_all l (r, c) (rangeZ 1 9)).
      2:{ apply (bool_decide_unpack _). vm_compute. exact I. }
      2:{ intros s Hs. apply elem_of_rangeZ. apply Hl in Hs as (_ & Hv & _).
          by apply valid_digit. }
      destruct (count_loop_spec
        (fun b => count_solutions_fuel fuel b limit) limit (r, c) g l
        (rangeZ 1 9) 0) as (k & Hk & Hbounds & Hlim); auto; try lia.
      * intros v. apply elem_of_rangeZ.
      * intros v Hv Hsafe. simpl tally. rewrite Z.add_0_r.
        apply (IH (S (9 * r + c))).
        -- by apply upd_wf.
        -- apply (filled_upto_upd g (r, c)); auto. lia.
        -- lia.
        -- apply digits_upd; auto. lia.
        -- by apply consistent_upd.
        -- by apply NoDup_filter.
        -- intros s. rewrite list_elem_of_filter, Hl.
           rewrite completion_upd by (auto; lia). tauto.
      * intros v Hsafe. simpl tally. rewrite Z.add_0_r.
        rewrite filter_nil_length; [done|].
        intros s Hs Heq. apply Hl in Hs.
        pose proof (completion_safe g (r, c) s Hp H0 Hs). congruence.
      * exists k. split; [done|]. lia.
    + exists 1. split; [done|].
      rewrite (singleton_list l g); [lia|done|].
      intros s. rewrite Hl. rewrite completion_full by done.
      split; [tauto|]. intros ->. split; [done|].
      by apply full_consistent_valid.
Qed.

(** The counter always returns, and leaves the board as it found it. *)
Lemma count_loop_run rec limit p nums acc g :
  wf g -> on_board p -> cell g p = 0 ->
  (forall v, v ∈ nums -> 1 <= v <= 9) ->
  (forall v, 1 <= v <= 9 -> exists k, rec (upd g p v) = Ok (k, upd g p v)) ->
  exists k, count_loop rec limit p.1 p.2 nums acc g = Ok (k, g).
Proof.
  intros Hwf Hp H0 Hnums Hrec. revert acc.
  induction nums as [|v nums IH]; intros acc; cbn [count_loop].
  - by exists acc.
  - assert (1 <= v <= 9) as Hv by (apply Hnums; left).
    specialize (IH (fun w Hw => Hnums w (list_elem_of_further _ _ _ Hw))).
    rewrite is_safe_safe by (destruct p; done).
    cbn [mbind result_bind rbind].
    replace (p.1, p.2) with p by (by destruct p).
    destruct (safe g p v) eqn:Hsafe; [|apply IH].
    rewrite setitem_upd by (destruct p; done).
    cbn [mbind result_bind rbind].
    replace (p.1, p.2) with p by (by destruct p).
    destruct (Hrec v Hv) as (k & ->).
    cbn [mbind result_bind rbind].
    rewrite setitem_upd by (destruct p; auto using upd_wf).
    cbn [mbind result_bind rbind].
    replace (p.1, p.2) with p by (by destruct p).
    rewrite upd_undo by done.
    destruct (limit <=? acc + k); [by eexists|apply IH].
Qed.

Lemma count_run fuel limit n g :
  wf g -> filled_upto g n -> (n <= 81 <= fuel + n - 1)%nat ->
  exists k, count_solutions_fuel fuel g limit = Ok (k, g).
Proof.
  revert n g. induction fuel as [|fuel IH]; intros n g Hwf Hfilled Hfuel.
  - lia.
  - rewrite count_solutions_fuel_S.
    pose proof (find_empty_spec g Hwf) as Hspec.
    destruct (find_empty g) as [[[r c]|]| |]; try done;
      cbn [mbind result_bind rbind].
    + destruct Hspec as (Hp & H0 & Hbefore).
      assert (n <= 9 * r + c <= 80)%nat as Hn.
      { split; [|destruct Hp; simpl in *; lia].
        apply Nat.nlt_ge. intros Hlt. by apply (Hfilled (r, c) Hp). }
      apply (count_loop_run _ limit (r, c)); auto.
      * intros v. apply elem_of_rangeZ.
      * intros v Hv. apply (IH (S (9 * r + c))).
        -- by apply upd_wf.
        -- apply (filled_upto_upd g (r, c)); auto. lia.
        -- lia.
    + by exists 1.
Qed.

Lemma filled_upto_0 g : filled_upto g 0.
Proof. intros p _ Hlt. lia. Qed.

Lemma count_solutions_total g limit :
  wf g -> exists k, count_solutions g limit = Ok (k, g).
Proof.
  intros Hwf. apply (count_run 82 limit 0); auto using filled_upto_0. lia.
Qed.

Lemma solve_full g : wf g -> full g -> solve_backtracking g = Ok (true, g).
Proof.
  intros Hwf Hfull. unfold solve_backtracking.
  rewrite solve_backtracking_fuel_S.
  pose proof (find_empty_spec g Hwf) as Hspec.
  destruct (find_empty g) as [[p|]| |]; try done.
  destruct Hspec as (Hp & H0 & _). by destruct (Hfull p Hp).
Qed.

Lemma count_full g limit :
  wf g -> full g -> count_solutions g limit = Ok (1, g).
Proof.
  intros Hwf Hfull. unfold count_solutions.
  rewrite count_solutions_fuel_S.
  pose proof (find_empty_spec g Hwf) as Hspec.
  destruct (find_empty g) as [[p|]| |]; try done.
  destruct Hspec as (Hp & H0 & _). by destruct (Hfull p Hp).
Qed.

(** ** The puzzle carver *)

Section carver_correct.
Context {rng : Type} `{!Shuffle rng} `{!ShuffleSpec rng}.

Lemma carve_loop_carved solution cells holes removed puzzle :
  (forall p, p ∈ cells -> on_board p) ->
  carved solution puzzle ->
  exists puzzle', carve_loop cells holes removed puzzle = Ok puzzle' /\
    carved solution puzzle'.
Proof.
  revert removed puzzle.
  induction cells as [|[r c] cells IH]; intros removed puzzle Hcells Hinv;
    cbn [carve_loop].
  - by exists puzzle.
  - destruct (holes <=? removed); [by exists puzzle|].
    assert (on_board (r, c)) as Hp by (apply Hcells; left).
    assert (forall p, p ∈ cells -> on_board p) as Hcells'
      by (intros; apply Hcells; by right).
    destruct Hinv as (Hwf & Hcount & Hext).
    rewrite get_cell by done. cbn [mbind result_bind rbind].
    rewrite setitem_upd by done. cbn [mbind result_bind rbind].
    destruct (count_solutions_total (upd puzzle (r, c) 0) 2) as (n & Hn);
      [by apply upd_wf|].
    rewrite Hn. cbn [mbind result_bind rbind].
    destruct (Z.eqb_spec n 1) as [->|Hne].
    + apply IH; [done|]. split; [by apply upd_wf|]. split; [done|].
      intros q Hq Hn0. destruct (decide ((r, c) = q)) as [<-|Hneq].
      * by rewrite cell_upd_eq in Hn0.
      * rewrite cell_upd_ne in * by done. by apply Hext.
    + rewrite setitem_upd by (auto using upd_wf).
      cbn [mbind result_bind rbind].
      rewrite upd_upd, upd_same by done. by apply IH.
Qed.
End carver_correct.

(** ** The scripted source is a shuffle *)

Lemma is_perm_Permutation p n : Scripted.is_perm p n = true -> p ≡ₚ seq 0 n.
Proof.
  unfold Scripted.is_perm. rewrite andb_true_iff, forallb_forall.
  intros [Hlen Hall]. apply Nat.eqb_eq in Hlen. symmetry.
  apply submseteq_length_Permutation.
  - apply NoDup_submseteq; [apply NoDup_seq|].
    intros i Hi. apply list_elem_of_In, Hall, existsb_exists in Hi.
    destruct Hi as (j & Hj & Heq). apply Nat.eqb_eq in Heq as ->.
    by apply list_elem_of_In.
  - rewrite length_seq. lia.
Qed.

Lemma omap_lookup_seq {A} (pre l : list A) :
  omap (fun i => (pre ++ l) !! i) (seq (length pre) (length l)) = l.
Proof.
  revert pre. induction l as [|x l IH]; intros pre; [done|].
  cbn [length seq omap list_omap]. rewrite list_lookup_middle by done.
  f_equal. specialize (IH (pre ++ [x])).
  rewrite length_app, Nat.add_1_r, <- app_assoc in IH. exact IH.
Qed.

#[global] Instance scripted_shuffle_spec : ShuffleSpec Scripted.rng.
Proof.
  intros A s l. destruct s as [|p s]; [done|].
  unfold shuffle, Scripted.scripted_shuffle, Scripted.reorder. simpl.
  destruct (Scripted.is_perm p (length l)) eqn:Hp; [|done].
  apply is_perm_Permutation in Hp. rewrite Hp.
  pose proof (omap_lookup_seq [] l) as Hl. simpl in Hl. by rewrite Hl.
Qed.

(** Properties of all cells of the board, checked cell by cell. *)
Lemma Forall_all_cells (P : nat * nat -> Prop) :
  Forall P all_cells <-> forall p, on_board p -> P p.
Proof.
  rewrite Forall_forall. split; intros H p Hp; apply H; by apply elem_of_all_cells.
Qed.

Ltac by_computation := apply (bool_decide_unpack _); vm_compute; exact I.

Lemma wf_by_rows board :
  length board = 9%nat -> Forall (fun row => length row = 9%nat) board -> wf board.
Proof. by split. Qed.

Ltac solve_wf := apply wf_by_rows; [reflexivity|by_computation].

Lemma digits_by_cells board :
  Forall (fun p => 0 <= cell board p <= 9) all_cells -> digits board.
Proof. intros H. by rewrite Forall_all_cells in H. Qed.

Lemma consistent_by_cells board :
  Forall (fun p => Forall (fun q =>
    peers p q -> cell board p <> 0 -> cell board p <> cell board q)
    all_cells) all_cells ->
  consistent board.
Proof.
  intros H p q Hp Hq. rewrite Forall_all_cells in H.
  specialize (H p Hp). rewrite Forall_all_cells in H. by apply H.
Qed.

Lemma extends_by_cells g s :
  Forall (fun p => cell g p <> 0 -> cell s p = cell g p) all_cells ->
  extends g s.
Proof. intros H. by rewrite Forall_all_cells in H. Qed.

(** ** The generator: what every run guarantees *)

Section generator_correct.
Context {rng : Type} `{!Shuffle rng} `{!ShuffleSpec rng}.

Lemma fill_loop_run rec p g idxs (st : @gen_state rng) :
  wf g -> on_board p -> cell g p = 0 ->
  gen_board st = g -> gen_nums st ≡ₚ rangeZ 1 9 ->
  (forall v st1, 1 <= v <= 9 -> safe g p v = true ->
     gen_board st1 = upd g p v -> gen_nums st1 ≡ₚ rangeZ 1 9 ->
     exists b st', rec st1 = Ok (b, st') /\ fill_post st1 b st') ->
  exists b st', fill_loop rec p.1 p.2 idxs st = Ok (b, st') /\
    fill_post st b st'.
Proof.
  intros Hwf Hp H0 Hg Hnums Hrec. revert st Hg Hnums.
  induction idxs as [|i idxs IH]; intros st Hg Hnums; cbn [fill_loop].
  - exists false, st. by split.
  - destruct (gen_nums st !! i) as [n|] eqn:Hn; [|exists false, st; by split].
    assert (1 <= n <= 9) as Hv.
    { apply elem_of_rangeZ. rewrite <- Hnums. by eapply list_elem_of_lookup_2. }
    rewrite Hg, is_safe_safe by (destruct p; done).
    cbn [mbind result_bind rbind].
    replace (p.1, p.2) with p by (by destruct p).
    destruct (safe g p n) eqn:Hsafe; [|by apply IH].
    rewrite setitem_upd by (destruct p; done).
    cbn [mbind result_bind rbind].
    replace (p.1, p.2) with p by (by destruct p).
    destruct (Hrec n (with_board st (upd g p n)) Hv Hsafe eq_refl Hnums)
      as (b & st' & -> & Hnums' & Hpost).
    cbn [mbind result_bind rbind]. destruct b.
    + exists true, st'. by split.
    + cbn [with_board gen_board] in Hpost. rewrite Hpost.
      rewrite setitem_upd by (destruct p; auto using upd_wf).
      cbn [mbind result_bind rbind].
      replace (p.1, p.2) with p by (by destruct p).
      rewrite upd_undo by done.
      destruct (IH (with_board st' g) eq_refl Hnums')
        as (b & st'' & -> & Hnums'' & Hpost').
      exists b, st''. split; [done|]. split; [done|].
      destruct b; [done|]. by rewrite Hpost', Hg.
Qed.

Lemma fill_cell_run fuel idx (st : @gen_state rng) :
  (idx <= 81 < fuel + idx)%nat -> fill_pre idx st ->
  exists b st', fill_cell fuel idx st = Ok (b, st') /\ fill_post st b st'.
Proof.
  revert idx st. induction fuel as [|fuel IH]; intros idx st Hfuel Hpre; [lia|].
  destruct Hpre as (Hwf & Hd & Hc & Hfilled & Hempty & Hnums).
  cbn [fill_cell]. destruct (Nat.eqb_spec idx 81) as [->|Hidx].
  - exists true, st. split; [done|]. split; [done|]. split; [done|].
    apply full_consistent_valid; auto.
    intros p Hp. apply Hfilled; [done|]. destruct Hp. lia.
  - pose proof (shuffle_perm _ (gen_rng st) (gen_nums st)) as Hperm.
    destruct (shuffle (gen_rng st) (gen_nums st)) as [nums s].
    cbn [fst] in Hperm.
    set (p := (idx / 9, idx mod 9)%nat).
    assert (on_board p) as Hp by (unfold on_board, p; cbn [fst snd]; lia).
    assert (9 * p.1 + p.2 = idx)%nat as Hidxp by (unfold p; cbn [fst snd]; lia).
    destruct (fill_loop_run (fill_cell fuel (idx + 1)) p (gen_board st)
      (seq 0 (length nums)) (GenState (gen_board st) nums s))
      as (b & st' & Hrun & Hnums' & Hpost); auto.
    + apply Hempty; [done|lia].
    + cbn [gen_nums]. by etransitivity.
    + intros v st1 Hv Hsafe Hb1 Hn1. apply IH; [lia|].
      assert (cell (gen_board st) p = 0) as H0 by (apply Hempty; [done|lia]).
      unfold fill_pre. rewrite Hb1. split; [by apply upd_wf|].
      split; [apply digits_upd; auto; lia|].
      split; [by apply consistent_upd|]. split; [|split; [|done]].
      * replace (idx + 1)%nat with (S (9 * p.1 + p.2)) by lia.
        apply filled_upto_upd; auto; [lia|].
        intros q Hq Hlt. apply Hfilled; [done|]. unfold before in Hlt. lia.
      * intros q Hq Hle. rewrite cell_upd_ne; [apply Hempty; [done|lia]|].
        intros <-. lia.
    + exists b, st'. split; [exact Hrun|]. by split.
Qed.

(** For every random source that satisfies the contract of [random.shuffle],
    [generate_full_board] returns, and the board it returns either satisfies
    the full-grid invariant or is the board it started from, all 0. *)
Lemma generate_full_board_valid_or_empty (s : rng) :
  exists board s',
    generate_full_board s = Ok (board, s') /\
    ((wf board /\ valid board) \/ board = replicate 9 (replicate 9 0)).
Proof.
  unfold generate_full_board.
  destruct (fill_cell_run 82 0
    (GenState (replicate 9 (replicate 9 0)) (rangeZ 1 9) s))
    as (b & st' & -> & _ & Hpost); [lia| |].
  - split; [solve_wf|]. split; [apply digits_by_cells; by_computation|].
    split; [apply consistent_by_cells; by_computation|].
    split; [apply filled_upto_0|]. split; [|done].
    intros p Hp _.
    assert (Forall (fun p => cell (replicate 9 (replicate 9 0)) p = 0)
      all_cells) as H by by_computation.
    rewrite Forall_all_cells in H. by apply H.
  - cbn [mbind result_bind rbind]. exists (gen_board st'), (gen_rng st').
    split; [done|]. destruct b; [by left|by right].
Qed.
End generator_correct.

(** With a source that leaves every list in its order, the generator is the
    plain search in increasing order and fills the board. *)
Example generate_full_board_in_order :
  generate_full_board ([] : Scripted.rng) =
  Ok ([ [1;2;3;4;5;6;7;8;9];
        [4;5;6;7;8;9;1;2;3];
        [7;8;9;1;2;3;4;5;6];
        [2;1;4;3;6;5;8;9;7];
        [3;6;5;8;9;7;2;1;4];
        [8;9;7;2;1;4;3;6;5];
        [5;3;1;6;4;2;9;7;8];
        [6;4;2;9;7;8;5;3;1];
        [9;7;8;5;3;1;6;4;2] ], []).
Proof. vm_compute. reflexivity. Qed.

(** * Claims *)

(** C9. On a 9x9 board [find_empty] returns; it returns [(r, c)] exactly
    when [(r, c)] is the first cell holding 0 in row-major order (rows 0..8,
    columns 0..8 within a row), and it returns [None] exactly when no cell
    holds 0. It only reads the board: its result carries no board. *)
Theorem find_empty_first_zero board :
  wf board ->
  (exists spot, find_empty board = Ok spot) /\
  (forall r c,
     find_empty board = Ok (Some (r, c)) <->
     (r < 9)%nat /\ (c < 9)%nat /\ cell board (r, c) = 0 /\
     forall r' c', (r' < 9)%nat -> (c' < 9)%nat ->
       (r' < r \/ (r' = r /\ c' < c))%nat -> cell board (r', c') <> 0) /\
  (find_empty board = Ok None <->
   forall r c, (r < 9)%nat -> (c < 9)%nat -> cell board (r, c) <> 0).
Proof.
  intros Hwf. pose proof (find_empty_spec board Hwf) as Hspec.
  destruct (find_empty board) as [[[r0 c0]|]| |] eqn:Hfind; try done.
  - destruct Hspec as ([Hr0 Hc0] & H0 & Hbefore). simpl in *.
    split; [by eexists|]. split.
    + intros r c. split.
      * intros [= <- <-]. repeat split; auto.
        intros r' c' Hr' Hc' Hlt. apply Hbefore; [by split|].
        unfold before. simpl. lia.
      * intros (Hr & Hc & Hz & Hfirst).
        destruct (decide (r0 < r \/ (r0 = r /\ c0 < c))%nat) as [Hlt|Hnlt].
        { by destruct (Hfirst r0 c0). }
        destruct (decide (r < r0 \/ (r = r0 /\ c < c0))%nat) as [Hlt|Hnlt'].
        { destruct (Hbefore (r, c)); auto; [by split|].
          unfold before. simpl. lia. }
        do 2 f_equal. f_equal; lia.
    + split; [done|]. intros Hfull. by destruct (Hfull r0 c0).
  - split; [by eexists|]. split.
    + intros r c. split; [done|]. intros (Hr & Hc & Hz & _).
      by destruct (Hspec (r, c)).
    + split; [|done]. intros _ r c Hr Hc. by apply Hspec.
Qed.

Lemma find_empty_first_zero_witness :
  wf Examples.puzzle /\ find_empty Examples.puzzle = Ok (Some (1, 1)%nat).
Proof.
  assert (wf Examples.puzzle) as Hwf by solve_wf.
  split; [exact Hwf|].
  destruct (find_empty_first_zero Examples.puzzle Hwf) as ([spot Hspot] & _ & _).
  rewrite Hspot. vm_compute in Hspot. congruence.
Defined.

(** C5. On a 9x9 board, for a cell [(row, col)] of the board and a value
    1..9, [is_safe] answers [False] when the value already appears in the
    row, in the column or in the 3x3 box of the cell, and [True] otherwise.
    It only reads the board: its result carries no board. *)
Theorem is_safe_row_column_box board row col value :
  wf board -> (row < 9)%nat -> (col < 9)%nat -> 1 <= value <= 9 ->
  let appears :=
    (exists c, (c < 9)%nat /\ cell board (row, c) = value) \/
    (exists r, (r < 9)%nat /\ cell board (r, col) = value) \/
    (exists r c, (r < 9)%nat /\ (c < 9)%nat /\
       (r / 3 = row / 3)%nat /\ (c / 3 = col / 3)%nat /\
       cell board (r, c) = value) in
  (appears -> is_safe board row col value = Ok false) /\
  (~ appears -> is_safe board row col value = Ok true).
Proof.
  intros Hwf Hr Hc _ appears.
  assert (on_board (row, col)) as Hp by done.
  rewrite is_safe_safe by done.
  assert (appears <->
    exists q, on_board q /\ same_unit (row, col) q /\ cell board q = value)
    as Happ.
  { unfold appears, same_unit, on_board. split.
    - intros [(c & Hc' & Hv)|[(r & Hr' & Hv)|(r & c & Hr' & Hc' & Hbr & Hbc & Hv)]].
      + exists (row, c). cbn [fst snd]. auto.
      + exists (r, col). cbn [fst snd]. auto.
      + exists (r, c). cbn [fst snd]. split; [done|]. split; [|done].
        right. right. by split.
    - intros ([r c] & [Hr' Hc'] & Hunit & Hv). cbn [fst snd] in *.
      destruct Hunit as [<-|[<-|[Hbr Hbc]]].
      + left. by exists c.
      + right. left. by exists r.
      + right. right. exists r, c. auto. }
  split.
  - intros Ha. f_equal. apply safe_false; [done|]. by apply Happ.
  - intros Hna. f_equal. apply not_false_iff_true. intros Hf.
    apply Hna, Happ. by apply safe_false in Hf.
Qed.

Lemma is_safe_row_column_box_witness :
  is_safe Examples.puzzle 1 1 5 = Ok true /\
  is_safe Examples.puzzle 1 1 6 = Ok false.
Proof.
  assert (wf Examples.puzzle) as Hwf by solve_wf.
  destruct (is_safe_row_column_box Examples.puzzle 1 1 5 Hwf) as [_ H5];
    [lia|lia|lia|].
  destruct (is_safe_row_column_box Examples.puzzle 1 1 6 Hwf) as [H6 _];
    [lia|lia|lia|].
  split.
  - apply H5.
    intros [(c & Hc & Hv)|[(r & Hr & Hv)|(r & c & Hr & Hc & Hbr & Hbc & Hv)]].
    + do 9 (destruct c as [|c]; [by vm_compute in Hv|]). lia.
    + do 9 (destruct r as [|r]; [by vm_compute in Hv|]). lia.
    + do 9 (destruct r as [|r];
        [do 9 (destruct c as [|c];
           [first [by vm_compute in Hv|by vm_compute in Hbr
                  |by vm_compute in Hbc]|]); lia|]). lia.
  - apply H6. left. exists 2%nat. split; [lia|reflexivity].
Defined.

(** C10. A 9x9 board without empty cells, valid or not, is accepted as it
    is: [solve_backtracking] returns [True] and leaves every cell, and
    [count_solutions] returns 1 (for any limit); the placed values are not
    inspected. *)
Theorem full_board_not_validated board limit :
  wf board ->
  (forall r c, (r < 9)%nat -> (c < 9)%nat -> cell board (r, c) <> 0) ->
  solve_backtracking board = Ok (true, board) /\
  count_solutions board limit = Ok (1, board).
Proof.
  intros Hwf Hfull.
  assert (full board) as Hf by (intros [r c] [Hr Hc]; by apply Hfull).
  split; [by apply solve_full|by apply count_full].
Qed.

Lemma full_board_not_validated_witness :
  ~ valid Examples.clash /\
  solve_backtracking Examples.clash = Ok (true, Examples.clash) /\
  count_solutions Examples.clash 2 = Ok (1, Examples.clash).
Proof.
  split; [by vm_compute|].
  apply full_board_not_validated; [solve_wf|].
  intros r c Hr Hc.
  assert (Forall (fun p => cell Examples.clash p <> 0) all_cells) as H
    by by_computation.
  rewrite Forall_all_cells in H. by apply (H (r, c)).
Defined.

(** C8. On a 9x9 board [count_solutions] returns and leaves the board equal,
    cell for cell, to the board it was given, whatever the limit and whatever
    the cells hold. *)
Theorem count_solutions_restores_board board limit :
  wf board -> exists count, count_solutions board limit = Ok (count, board).
Proof. apply count_solutions_total. Qed.

Lemma count_solutions_restores_board_witness :
  exists count, count_solutions Examples.three 2 = Ok (count, Examples.three).
Proof. apply count_solutions_restores_board. solve_wf. Defined.

Lemma solve_backtracking_run board :
  wf board ->
  exists solved board',
    solve_backtracking board = Ok (solved, board') /\
    solve_post board solved board'.
Proof.
  intros Hwf. apply (solve_run 82 0); auto using filled_upto_0. lia.
Qed.

Lemma solve_post_completion board board' :
  digits board -> consistent board ->
  solve_post board true board' -> completion board board'.
Proof.
  intros Hd Hc (Hwf' & Hfull & Hext & Hd' & Hc').
  split; [done|]. split; [|done]. apply full_consistent_valid; auto.
Qed.

(** C1 (amended). On a 9x9 board of integers in [0,9] whose placed values
    are consistent (no two cells of one row, column or box hold the same
    placed value), if [solve_backtracking] returns [True] then the board it
    leaves satisfies the full-grid invariant. *)
Theorem solve_true_valid board board' :
  wf board -> digits board -> consistent board ->
  solve_backtracking board = Ok (true, board') ->
  valid board'.
Proof.
  intros Hwf Hd Hc Hsolve.
  destruct (solve_backtracking_run board Hwf) as (b & g' & Hrun & Hpost).
  rewrite Hsolve in Hrun. injection Hrun as <- <-.
  by destruct (solve_post_completion board board' Hd Hc Hpost) as (_ & Hv & _).
Qed.

Lemma solve_true_valid_witness :
  solve_backtracking Examples.puzzle = Ok (true, Examples.solved) /\
  valid Examples.solved.
Proof.
  assert (solve_backtracking Examples.puzzle = Ok (true, Examples.solved))
    as Hsolve by (vm_compute; reflexivity).
  split; [exact Hsolve|].
  apply (solve_true_valid Examples.puzzle Examples.solved).
  - solve_wf.
  - apply digits_by_cells. by_computation.
  - apply consistent_by_cells. by_computation.
  - exact Hsolve.
Defined.

(** C1 as stated fails: a board of integers in [0,9] carrying a duplicate is
    completed by [solve_backtracking], which returns [True] on a board that
    breaks the invariant. *)
Lemma solve_true_not_valid :
  wf Examples.clash_open /\ digits Examples.clash_open /\
  solve_backtracking Examples.clash_open = Ok (true, Examples.clash) /\
  ~ valid Examples.clash.
Proof.
  split; [solve_wf|]. split; [apply digits_by_cells; by_computation|].
  split; [vm_compute; reflexivity|]. by vm_compute.
Qed.

(** C6 (amended). On a 9x9 board of integers in [0,9] whose placed values
    are consistent and which has no valid completion, [solve_backtracking]
    returns [False] and leaves the board equal, cell for cell, to the board
    it was given. *)
Theorem solve_unsolvable_restores board :
  wf board -> digits board -> consistent board ->
  (forall s, ~ completion board s) ->
  solve_backtracking board = Ok (false, board).
Proof.
  intros Hwf Hd Hc Hnone.
  destruct (solve_backtracking_run board Hwf) as (b & g' & Hrun & Hpost).
  destruct b.
  - destruct (Hnone g'). by apply solve_post_completion.
  - simpl in Hpost. by subst g'.
Qed.

Lemma solve_unsolvable_restores_witness :
  solve_backtracking Examples.stuck = Ok (false, Examples.stuck).
Proof.
  assert (wf Examples.stuck) as Hwf by solve_wf.
  apply solve_unsolvable_restores.
  - exact Hwf.
  - apply digits_by_cells. by_computation.
  - apply consistent_by_cells. by_computation.
  - intros s Hs.
    destruct (solve_finds 82 0 Examples.stuck s) as (g' & Hrun & _);
      auto using filled_upto_0; [lia|].
    vm_compute in Hrun. discriminate.
Defined.

(** C6 as stated fails: a board of integers in [0,9] with a duplicate has no
    valid completion, yet [solve_backtracking] returns [True] on it and
    leaves it changed. *)
Lemma solve_true_without_completion :
  wf Examples.clash_open /\ digits Examples.clash_open /\
  (forall s, ~ completion Examples.clash_open s) /\
  solve_backtracking Examples.clash_open = Ok (true, Examples.clash).
Proof.
  split; [solve_wf|]. split; [apply digits_by_cells; by_computation|].
  split; [|vm_compute; reflexivity].
  intros s Hs. apply completion_consistent in Hs.
  assert (on_board (0, 0)%nat /\ on_board (0, 1)%nat) as [Hp Hq]
    by (unfold on_board; simpl; lia).
  apply (Hs (0, 0)%nat (0, 1)%nat Hp Hq).
  - split; [discriminate|]. by left.
  - by vm_compute.
  - reflexivity.
Qed.

(** C7. On a 9x9 board that has a valid completion, [solve_backtracking]
    returns [True] and the board it leaves is a valid completion that comes
    first, in the lexicographic order of the row-major readings, among all
    valid completions. The result is a function of the board given. *)
Theorem solve_lexicographically_first board :
  wf board -> (exists s, completion board s) ->
  exists board',
    solve_backtracking board = Ok (true, board') /\
    completion board board' /\
    forall s, completion board s -> lex_le (flatten board') (flatten s).
Proof.
  intros Hwf [s0 Hs0].
  destruct (solve_finds 82 0 board s0) as (g' & Hrun & _);
    auto using filled_upto_0; [lia|].
  exists g'. split; [exact Hrun|]. split.
  - destruct (solve_backtracking_run board Hwf) as (b & g'' & Hrun' & Hpost).
    unfold solve_backtracking in Hrun'. rewrite Hrun in Hrun'.
    injection Hrun' as <- <-.
    apply solve_post_completion; eauto using completion_digits, completion_consistent.
  - intros s Hs.
    destruct (solve_finds 82 0 board s) as (g'' & Hrun' & Hlex);
      auto using filled_upto_0; [lia|].
    rewrite Hrun in Hrun'. by injection Hrun' as <-.
Qed.

Lemma solve_lexicographically_first_witness :
  exists board',
    solve_backtracking Examples.puzzle = Ok (true, board') /\
    completion Examples.puzzle board' /\
    forall s, completion Examples.puzzle s ->
      lex_le (flatten board') (flatten s).
Proof.
  apply solve_lexicographically_first; [solve_wf|].
  exists Examples.solved. split; [solve_wf|]. split; [by vm_compute|].
  apply extends_by_cells. by_computation.
Defined.

(** C2 (amended). On a 9x9 board of integers in [0,9] whose placed values
    are consistent, for every limit >= 1, [count_solutions] returns a count
    that is at most the number of distinct valid completions and that agrees
    with that number up to the limit: the smaller of the count and the limit
    equals the smaller of the number of completions and the limit. The count
    itself may exceed the limit. The completions are given as a
    duplicate-free list of all of them. *)
Theorem count_solutions_up_to_limit board limit completions :
  wf board -> digits board -> consistent board -> 1 <= limit ->
  NoDup completions ->
  (forall s, s ∈ completions <-> completion board s) ->
  exists count,
    count_solutions board limit = Ok (count, board) /\
    0 <= count <= Z.of_nat (length completions) /\
    Z.min count limit = Z.min (Z.of_nat (length completions)) limit.
Proof.
  intros Hwf Hd Hc Hlimit Hnd Hall.
  destruct (count_spec 82 limit 0 board completions)
    as (k & Hrun & Hbound & Hlim); auto using filled_upto_0; [lia|].
  exists k. split; [exact Hrun|]. split; [done|]. lia.
Qed.

Lemma count_solutions_up_to_limit_witness :
  exists count,
    count_solutions Examples.solved 2 = Ok (count, Examples.solved) /\
    0 <= count <= 1 /\ Z.min count 2 = 1.
Proof.
  assert (wf Examples.solved) as Hwf by solve_wf.
  assert (valid Examples.solved) as Hv by (by vm_compute).
  apply (count_solutions_up_to_limit Examples.solved 2 [Examples.solved]).
  - exact Hwf.
  - apply digits_by_cells. by_computation.
  - by apply valid_consistent.
  - lia.
  - apply NoDup_singleton.
  - intros s. rewrite list_elem_of_singleton.
    rewrite completion_full by auto using valid_full. tauto.
Defined.

(** C2 as stated fails. With limit 2 the counter returns 3 on a board of
    integers in [0,9], which is not the smaller of 2 and any number; and on
    a full board carrying a duplicate, which has no valid completion, it
    returns 1. *)
Lemma count_solutions_exceeds_limit :
  (wf Examples.three /\ digits Examples.three /\
   count_solutions Examples.three 2 = Ok (3, Examples.three) /\
   forall n : nat, 3 <> Z.min (Z.of_nat n) 2) /\
  (wf Examples.clash /\ digits Examples.clash /\
   count_solutions Examples.clash 2 = Ok (1, Examples.clash) /\
   forall s, ~ completion Examples.clash s).
Proof.
  split.
  - split; [solve_wf|]. split; [apply digits_by_cells; by_computation|].
    split; [vm_compute; reflexivity|]. intros n. lia.
  - split; [solve_wf|]. split; [apply digits_by_cells; by_computation|].
    split; [vm_compute; reflexivity|].
    intros s (Hwfs & Hv & Hagree).
    assert (s = Examples.clash) as ->; [|by vm_compute in Hv].
    apply board_ext; [done|solve_wf|]. intros p Hp. apply Hagree; [done|].
    assert (Forall (fun p => cell Examples.clash p <> 0) all_cells) as H
      by by_computation.
    rewrite Forall_all_cells in H. by apply H.
Qed.

(** C3. For every solution board satisfying the full-grid invariant, every
    hole count and every state of the random source, [make_puzzle] returns a
    puzzle on which [count_solutions] with limit 2 returns 1, and every
    nonzero cell of the puzzle holds the value of the solution. *)
Theorem make_puzzle_unique_and_faithful
    {rng : Type} `{!Shuffle rng} `{!ShuffleSpec rng}
    (solution : Board) (holes : Z) (s : rng) :
  wf solution -> valid solution ->
  exists puzzle s',
    make_puzzle solution holes s = Ok (puzzle, s') /\
    count_solutions puzzle 2 = Ok (1, puzzle) /\
    forall r c, (r < 9)%nat -> (c < 9)%nat ->
      cell puzzle (r, c) <> 0 -> cell puzzle (r, c) = cell solution (r, c).
Proof.
  intros Hwf Hv. unfold make_puzzle.
  pose proof (shuffle_perm _ s all_cells) as Hperm.
  destruct (shuffle s all_cells) as [cells s'].
  destruct (carve_loop_carved solution cells holes 0 solution)
    as (puzzle & Hrun & Hwf' & Hcount & Hext).
  - intros p Hp. apply elem_of_all_cells. simpl in Hperm. by rewrite <- Hperm.
  - split; [done|]. split; [|by intros p].
    apply count_full; auto using valid_full.
  - exists puzzle, s'. rewrite Hrun. split; [done|]. split; [done|].
    intros r c Hr Hc Hn0. symmetry. by apply (Hext (r, c)).
Qed.

Lemma make_puzzle_unique_and_faithful_witness :
  exists puzzle s',
    make_puzzle Examples.solved 3 ([] : Scripted.rng) = Ok (puzzle, s') /\
    count_solutions puzzle 2 = Ok (1, puzzle) /\
    forall r c, (r < 9)%nat -> (c < 9)%nat ->
      cell puzzle (r, c) <> 0 ->
      cell puzzle (r, c) = cell Examples.solved (r, c).
Proof.
  apply make_puzzle_unique_and_faithful; [solve_wf|by vm_compute].
Defined.

(** C4 fails on the code. [fill_cell] reshuffles the one list [nums] that
    the loops of all its callers are iterating over, so a caller resumes at
    its next index in a list that was reordered under it and can miss
    candidates. With the source [Adversary.source], a source that satisfies
    the contract of [random.shuffle], every branch is abandoned:
    [fill_cell(0)] returns [False], its result is dropped, and
    [generate_full_board] returns the board with all 81 cells still 0. *)
Theorem generate_full_board_empty :
  generate_full_board Adversary.source = Ok (replicate 9 (replicate 9 0), []).
Proof. vm_compute. reflexivity. Qed.

(** * Further properties *)

(** ** Finitely many completions *)

Lemma elem_of_words {A} n (alphabet : list A) l :
  l ∈ words n alphabet <-> length l = n /\ Forall (fun a => a ∈ alphabet) l.
Proof.
  revert l. induction n as [|n IH]; intros l; cbn [words].
  - rewrite list_elem_of_singleton. split.
    + by intros ->.
    + intros [Hlen _]. by destruct l.
  - rewrite list_elem_of_bind. split.
    + intros (a & Hl & Ha). apply list_elem_of_fmap in Hl as (l' & -> & Hl').
      apply IH in Hl' as [Hlen Hall]. split; [by rewrite <- Hlen|].
      by constructor.
    + intros [Hlen Hall]. destruct l as [|a l]; [done|].
      apply Forall_cons in Hall as [Ha Hall]. exists a. split; [|done].
      apply list_elem_of_fmap_2, IH. split; [|done]. simpl in Hlen. lia.
Qed.

Lemma NoDup_words {A} n (alphabet : list A) :
  NoDup alphabet -> NoDup (words n alphabet).
Proof.
  intros Hnd. induction n as [|n IH]; cbn [words].
  - apply NoDup_singleton.
  - apply NoDup_bind; [| |done].
    + intros a1 a2 l _ _ H1 H2.
      apply list_elem_of_fmap in H1 as (l1 & -> & _).
      apply list_elem_of_fmap in H2 as (l2 & Heq & _). congruence.
    + intros a _. apply NoDup_fmap_2; [|done]. intros l1 l2. congruence.
Qed.

(* The enumerations are never to be computed. *)
Opaque words.

Lemma completes_completion g s : completes g s <-> completion g s.
Proof. unfold completes, completion. by rewrite Forall_all_cells. Qed.

Lemma valid_filled s : wf s -> valid s -> s ∈ filled_boards.
Proof.
  intros Hwf Hv. pose proof Hwf as [Hlen Hrows].
  apply (proj2 (elem_of_words 9 (words 9 (rangeZ 1 9)) s)). split; [done|].
  apply Forall_lookup. intros r row Hrow.
  assert (r < 9)%nat as Hr by (apply lookup_lt_Some in Hrow; lia).
  assert (length row = 9%nat) as Hlenr.
  { rewrite Forall_forall in Hrows. apply Hrows.
    by eapply list_elem_of_lookup_2. }
  apply (proj2 (elem_of_words 9 (rangeZ 1 9) row)). split; [done|].
  apply Forall_lookup. intros c v Hc.
  assert (c < 9)%nat as Hc9 by (apply lookup_lt_Some in Hc; lia).
  destruct (wf_cell s (r, c) Hwf) as (row' & Hrow' & Hcell); [done|].
  cbn [fst snd] in *. rewrite Hrow in Hrow'. injection Hrow' as <-.
  rewrite Hc in Hcell. injection Hcell as ->.
  apply elem_of_rangeZ. by apply valid_digit.
Qed.

Lemma NoDup_completions g : NoDup (completions g).
Proof.
  unfold completions. apply NoDup_filter. unfold filled_boards.
  apply NoDup_words, NoDup_words.
  apply (bool_decide_unpack _). vm_compute. exact I.
Qed.

Lemma elem_of_completions g s : s ∈ completions g <-> completion g s.
Proof.
  unfold completions. rewrite list_elem_of_filter, completes_completion.
  split; [tauto|]. intros Hs. split; [done|].
  destruct Hs as (Hwf & Hv & _). by apply valid_filled.
Qed.

(** ** More on the solver *)

(** On a 9x9 board, whatever its cells hold, [solve_backtracking] returns.
    When it returns [False] the board is as it was given; when it returns
    [True] the board has no empty cell and every cell that was not empty
    holds the value it held. *)
Theorem solve_backtracking_outcome board :
  wf board ->
  exists solved board',
    solve_backtracking board = Ok (solved, board') /\
    (solved = false -> board' = board) /\
    (solved = true ->
       wf board' /\
       forall r c, (r < 9)%nat -> (c < 9)%nat ->
         cell board' (r, c) <> 0 /\
         (cell board (r, c) <> 0 -> cell board' (r, c) = cell board (r, c))).
Proof.
  intros Hwf.
  destruct (solve_backtracking_run board Hwf) as (b & g' & Hrun & Hpost).
  exists b, g'. split; [done|]. destruct b; simpl in Hpost.
  - split; [done|]. intros _.
    destruct Hpost as (Hwf' & Hfull & Hext & _). split; [done|].
    intros r c Hr Hc. split; [by apply Hfull|by apply (Hext (r, c))].
  - split; [done|]. done.
Qed.

Lemma solve_backtracking_outcome_witness :
  exists solved board',
    solve_backtracking Examples.stuck = Ok (solved, board') /\
    (solved = false -> board' = Examples.stuck) /\
    (solved = true ->
       wf board' /\
       forall r c, (r < 9)%nat -> (c < 9)%nat ->
         cell board' (r, c) <> 0 /\
         (cell Examples.stuck (r, c) <> 0 ->
          cell board' (r, c) = cell Examples.stuck (r, c))).
Proof. apply solve_backtracking_outcome. solve_wf. Defined.

Lemma peers_sym p q : peers p q -> peers q p.
Proof.
  unfold peers, same_unit. intros [Hne Hunit].
  split; [congruence|]. intuition congruence.
Qed.

Lemma added_clean_upd g0 g p v :
  wf g -> on_board p -> cell g p = 0 -> 1 <= v <= 9 -> safe g p v = true ->
  extends g0 g ->
  added_clean g0 g -> added_clean g0 (upd g p v).
Proof.
  intros Hwf Hp H0 Hv Hsafe Hext Hclean q Hq Hq0 Hqn0.
  rewrite safe_true in Hsafe by done.
  destruct (decide (p = q)) as [<-|Hne].
  - rewrite cell_upd_eq by done. split; [done|].
    intros (q' & Hq' & [Hne' Hunit] & Heq).
    rewrite cell_upd_eq, cell_upd_ne in Heq by done.
    by apply (Hsafe q' Hq' Hunit).
  - rewrite cell_upd_ne in * by done.
    destruct (Hclean q Hq Hq0 Hqn0) as [Hd Hnc]. split; [done|].
    intros (q' & Hq' & Hpeers & Heq).
    destruct (decide (p = q')) as [<-|Hne'].
    + rewrite cell_upd_eq, cell_upd_ne in Heq by done.
      apply (Hsafe q Hq); [|done]. by apply peers_sym in Hpeers as [_ ?].
    + rewrite !cell_upd_ne in Heq by done. apply Hnc. by exists q'.
Qed.

Lemma solve_loop_added rec g0 p nums g g' :
  wf g -> on_board p -> cell g p = 0 ->
  (forall v, v ∈ nums -> 1 <= v <= 9) ->
  extends g0 g -> added_clean g0 g ->
  (forall v, 1 <= v <= 9 ->
     exists b g1, rec (upd g p v) = Ok (b, g1) /\ solve_post (upd g p v) b g1) ->
  (forall v g1, 1 <= v <= 9 -> safe g p v = true ->
     rec (upd g p v) = Ok (true, g1) -> added_clean g0 g1) ->
  solve_loop rec p.1 p.2 nums g = Ok (true, g') ->
  added_clean g0 g'.
Proof.
  intros Hwf Hp H0 Hnums Hext Hclean Hrun Hrec.
  induction nums as [|v nums IH]; cbn [solve_loop]; [done|].
  assert (1 <= v <= 9) as Hv by (apply Hnums; left).
  specialize (IH (fun w Hw => Hnums w (list_elem_of_further _ _ _ Hw))).
  rewrite is_safe_safe by (destruct p; done).
  cbn [mbind result_bind rbind].
  replace (p.1, p.2) with p by (by destruct p).
  destruct (safe g p v) eqn:Hsafe; [|done].
  rewrite setitem_upd by (destruct p; done).
  cbn [mbind result_bind rbind].
  replace (p.1, p.2) with p by (by destruct p).
  destruct (Hrun v Hv) as (b & g1 & Hg1 & Hpost).
  rewrite Hg1. cbn [mbind result_bind rbind]. destruct b.
  - intros [= <-]. by apply (Hrec v g1).
  - simpl in Hpost. subst g1.
    rewrite setitem_upd by (destruct p; auto using upd_wf).
    cbn [mbind result_bind rbind].
    replace (p.1, p.2) with p by (by destruct p).
    by rewrite upd_undo by done.
Qed.

Lemma extends_trans g0 g g' : extends g0 g -> extends g g' -> extends g0 g'.
Proof.
  intros H1 H2 p Hp Hn0. rewrite <- (H1 p Hp Hn0). apply H2; [done|].
  by rewrite (H1 p Hp Hn0).
Qed.

Lemma extends_upd_empty g p v : cell g p = 0 -> extends g (upd g p v).
Proof.
  intros H0 q Hq Hn0. apply cell_upd_ne. congruence.
Qed.

Lemma solve_added fuel n g0 g g' :
  wf g -> filled_upto g n -> (n <= 81 <= fuel + n - 1)%nat ->
  extends g0 g -> added_clean g0 g ->
  solve_backtracking_fuel fuel g = Ok (true, g') ->
  added_clean g0 g'.
Proof.
  revert n g g'. induction fuel as [|fuel IH];
    intros n g g' Hwf Hfilled Hfuel Hext Hclean; [lia|].
  rewrite solve_backtracking_fuel_S.
  pose proof (find_empty_spec g Hwf) as Hspec.
  destruct (find_empty g) as [[[r c]|]| |]; try done;
    cbn [mbind result_bind rbind].
  - destruct Hspec as (Hp & H0 & Hbefore).
    assert (n <= 9 * r + c <= 80)%nat as Hn.
    { split; [|destruct Hp; simpl in *; lia].
      apply Nat.nlt_ge. intros Hlt. by apply (Hfilled (r, c) Hp). }
    assert (forall v, 1 <= v <= 9 ->
      filled_upto (upd g (r, c) v) (S (9 * r + c))) as Hfilled'.
    { intros v Hv. apply (filled_upto_upd g (r, c)); auto. lia. }
    apply (solve_loop_added _ g0 (r, c)); auto.
    + intros v. apply elem_of_rangeZ.
    + intros v Hv. apply (solve_run fuel (S (9 * r + c)));
        auto using upd_wf. lia.
    + intros v g1 Hv Hsafe. apply (IH (S (9 * r + c)));
        auto using upd_wf; [lia| |].
      * eapply extends_trans; [exact Hext|by apply extends_upd_empty].
      * by apply added_clean_upd.
  - by intros [= <-].
Qed.

(** When [solve_backtracking] returns [True] on a 9x9 board, whatever the
    board held, every cell it filled holds a digit 1..9 that no cell of the
    same row, column or box holds: a clash in the result is a clash between
    two values of the board as given. *)
Theorem solve_adds_no_conflict board board' :
  wf board -> solve_backtracking board = Ok (true, board') ->
  forall r c, (r < 9)%nat -> (c < 9)%nat -> cell board (r, c) = 0 ->
    1 <= cell board' (r, c) <= 9 /\
    forall r' c', (r' < 9)%nat -> (c' < 9)%nat -> (r', c') <> (r, c) ->
      (r' = r \/ c' = c \/
       ((r' / 3)%nat = (r / 3)%nat /\ (c' / 3)%nat = (c / 3)%nat)) ->
      cell board' (r', c') <> cell board' (r, c).
Proof.
  intros Hwf Hrun r c Hr Hc H0.
  assert (added_clean board board') as Hclean.
  { apply (solve_added 82 0 board board board'); auto using filled_upto_0.
    - lia.
    - by intros p.
    - intros p Hp Hp0 Hpn0. done. }
  destruct (solve_backtracking_run board Hwf) as (b & g' & Hrun' & Hpost).
  rewrite Hrun in Hrun'. injection Hrun' as <- <-.
  destruct Hpost as (_ & Hfull & _).
  assert (on_board (r, c)) as Hp by done.
  destruct (Hclean (r, c) Hp H0 (Hfull (r, c) Hp)) as [Hd Hnc].
  split; [done|]. intros r' c' Hr' Hc' Hne Hunit Heq. apply Hnc.
  exists (r', c'). split; [done|]. split; [|done].
  split; [congruence|]. unfold same_unit. cbn [fst snd].
  intuition congruence.
Qed.

Lemma solve_adds_no_conflict_witness :
  1 <= cell Examples.clash (8, 8)%nat <= 9 /\
  forall r' c', (r' < 9)%nat -> (c' < 9)%nat -> (r', c') <> (8, 8)%nat ->
    (r' = 8%nat \/ c' = 8%nat \/
     ((r' / 3)%nat = (8 / 3)%nat /\ (c' / 3)%nat = (8 / 3)%nat)) ->
    cell Examples.clash (r', c') <> cell Examples.clash (8, 8)%nat.
Proof.
  apply (solve_adds_no_conflict Examples.clash_open Examples.clash);
    [solve_wf|vm_compute; reflexivity|lia|lia|reflexivity].
Defined.

Lemma solve_decides board :
  wf board -> digits board -> consistent board ->
  (exists board', solve_backtracking board = Ok (true, board')) <->
  (exists s, completion board s).
Proof.
  intros Hwf Hd Hc. split.
  - intros [g' Hrun]. exists g'.
    destruct (solve_backtracking_run board Hwf) as (b & g'' & Hrun' & Hpost).
    rewrite Hrun in Hrun'. injection Hrun' as <- <-.
    by apply solve_post_completion.
  - intros [s Hs].
    destruct (solve_finds 82 0 board s) as (g' & Hrun & _);
      auto using filled_upto_0; [lia|].
    by exists g'.
Qed.

(** Solving is idempotent: on a 9x9 board, after [solve_backtracking] has
    returned [True], a second call on the board it left returns [True] and
    leaves that board as it is. *)
Theorem solve_twice board board' :
  wf board -> solve_backtracking board = Ok (true, board') ->
  solve_backtracking board' = Ok (true, board').
Proof.
  intros Hwf Hrun.
  destruct (solve_backtracking_run board Hwf) as (b & g' & Hrun' & Hpost).
  rewrite Hrun in Hrun'. injection Hrun' as <- <-.
  destruct Hpost as (Hwf' & Hfull & _). by apply solve_full.
Qed.

Lemma solve_twice_witness :
  solve_backtracking Examples.solved = Ok (true, Examples.solved).
Proof.
  apply (solve_twice Examples.puzzle); [solve_wf|vm_compute; reflexivity].
Defined.

(** ** More on the counter *)

Lemma count_against_completions board limit :
  wf board -> digits board -> consistent board ->
  exists k, count_solutions board limit = Ok (k, board) /\
    0 <= k <= Z.of_nat (length (completions board)) /\
    (limit <= k \/ k = Z.of_nat (length (completions board))).
Proof.
  intros Hwf Hd Hc.
  apply (count_spec 82 limit 0); auto using filled_upto_0, NoDup_completions.
  - lia.
  - apply elem_of_completions.
Qed.

Lemma length_zero_iff {A} (l : list A) :
  length l = 0%nat <-> forall x, x ∉ l.
Proof.
  destruct l as [|a l]; simpl; split; try done.
  - intros _ x. apply not_elem_of_nil.
  - intros H. destruct (H a). left.
Qed.

Lemma length_pos_elem {A} (l : list A) :
  length l <> 0%nat -> exists x, x ∈ l.
Proof. destruct l as [|a l]; [done|]. intros _. exists a. left. Qed.

Lemma length_one_iff {A} (l : list A) :
  NoDup l ->
  length l = 1%nat <-> exists x, x ∈ l /\ forall y, y ∈ l -> y = x.
Proof.
  intros Hnd. split.
  - destruct l as [|a [|b l]]; simpl; try done. intros _. exists a.
    split; [left|]. by intros y ->%list_elem_of_singleton.
  - intros (x & Hx & Huniq). apply (singleton_list l x Hnd).
    intros y. split; [by apply Huniq|by intros ->].
Qed.

Lemma completions_one board :
  length (completions board) = 1%nat <->
  exists s, completion board s /\ forall s', completion board s' -> s' = s.
Proof.
  rewrite (length_one_iff _ (NoDup_completions board)).
  by setoid_rewrite elem_of_completions.
Qed.

(** The uniqueness test of the carver is exact: on a 9x9 board of integers
    in [0,9] whose placed values are consistent, with a limit of at least 2,
    [count_solutions] returns 1 exactly when the board has one and only one
    valid completion. *)
Theorem count_one_iff_unique board limit :
  wf board -> digits board -> consistent board -> 2 <= limit ->
  count_solutions board limit = Ok (1, board) <->
  exists s, completion board s /\ forall s', completion board s' -> s' = s.
Proof.
  intros Hwf Hd Hc Hlimit.
  destruct (count_against_completions board limit Hwf Hd Hc)
    as (k & Hrun & Hk & Hlim).
  rewrite Hrun, <- completions_one. split.
  - intros [= ->]. lia.
  - intros Hlen. do 2 f_equal. lia.
Qed.

Lemma count_one_iff_unique_witness :
  count_solutions Examples.puzzle 2 = Ok (1, Examples.puzzle) <->
  exists s, completion Examples.puzzle s /\
    forall s', completion Examples.puzzle s' -> s' = s.
Proof.
  apply count_one_iff_unique.
  - solve_wf.
  - apply digits_by_cells. by_computation.
  - apply consistent_by_cells. by_computation.
  - lia.
Defined.

(** The counter and the solver agree: on a 9x9 board of integers in [0,9]
    whose placed values are consistent, with a limit of at least 1,
    [count_solutions] returns a positive count exactly when
    [solve_backtracking] returns [True]. *)
Theorem count_positive_iff_solved board limit :
  wf board -> digits board -> consistent board -> 1 <= limit ->
  (exists k, count_solutions board limit = Ok (k, board) /\ 1 <= k) <->
  (exists board', solve_backtracking board = Ok (true, board')).
Proof.
  intros Hwf Hd Hc Hlimit.
  rewrite solve_decides by done.
  destruct (count_against_completions board limit Hwf Hd Hc)
    as (k & Hrun & Hk & Hlim).
  rewrite Hrun. split.
  - intros (k' & [= <-] & Hpos).
    destruct (length_pos_elem (completions board)) as [s Hs]; [lia|].
    exists s. by apply elem_of_completions.
  - intros [s Hs]. exists k. split; [done|].
    apply elem_of_completions in Hs.
    assert (length (completions board) <> 0%nat); [|lia].
    rewrite length_zero_iff. intros Hnone. by apply (Hnone s).
Qed.

Lemma count_positive_iff_solved_witness :
  (exists k, count_solutions Examples.puzzle 2 = Ok (k, Examples.puzzle) /\
     1 <= k) <->
  (exists board', solve_backtracking Examples.puzzle = Ok (true, board')).
Proof.
  apply count_positive_iff_solved.
  - solve_wf.
  - apply digits_by_cells. by_computation.
  - apply consistent_by_cells. by_computation.
  - lia.
Defined.

(** ** More on the carver *)

Lemma filter_length_mono {A} (P Q : A -> Prop)
    `{forall x, Decision (P x)} `{forall x, Decision (Q x)} (l : list A) :
  (forall x, x ∈ l -> P x -> Q x) ->
  (length (filter P l) <= length (filter Q l))%nat.
Proof.
  induction l as [|a l IH]; intros Himp; [done|].
  assert (length (filter P l) <= length (filter Q l))%nat as IH'
    by (apply IH; intros x Hx; apply Himp; by right).
  rewrite !filter_cons.
  destruct (decide (P a)) as [HP|HP]; destruct (decide (Q a)) as [HQ|HQ];
    simpl; try lia.
  destruct HQ. apply Himp; [left|done].
Qed.

Lemma filter_length_but_one `{EqDecision A} (P Q : A -> Prop)
    `{forall x, Decision (P x)} `{forall x, Decision (Q x)}
    (l : list A) (p : A) :
  NoDup l -> (forall x, x <> p -> P x -> Q x) ->
  (length (filter P l) <= S (length (filter Q l)))%nat.
Proof.
  intros Hnd Himp. induction Hnd as [|a l Hnotin Hnd IH]; [simpl; lia|].
  rewrite !filter_cons.
  destruct (decide (P a)) as [HP|HP]; destruct (decide (Q a)) as [HQ|HQ];
    simpl; try lia.
  assert (a = p) as ->.
  { destruct (decide (a = p)) as [|Hne]; [done|]. destruct HQ. by apply Himp. }
  assert (length (filter P l) <= length (filter Q l))%nat; [|lia].
  apply filter_length_mono. intros x Hx. apply Himp. by intros ->.
Qed.

Lemma NoDup_all_cells : NoDup all_cells.
Proof. apply (bool_decide_unpack _). vm_compute. exact I. Qed.

Lemma empties_upd g p v :
  (empties (upd g p v) <= S (empties g))%nat.
Proof.
  unfold empties. apply (filter_length_but_one _ _ _ p); [apply NoDup_all_cells|].
  intros q Hne. by rewrite cell_upd_ne.
Qed.

Lemma empties_full g : full g -> empties g = 0%nat.
Proof.
  intros Hfull. unfold empties. apply filter_nil_length.
  intros p Hp. apply Hfull. by apply elem_of_all_cells.
Qed.

Lemma carve_loop_empties cells holes removed puzzle puzzle' :
  (forall p, p ∈ cells -> on_board p) -> wf puzzle ->
  Z.of_nat (empties puzzle) <= removed ->
  carve_loop cells holes removed puzzle = Ok puzzle' ->
  Z.of_nat (empties puzzle') <= Z.max removed holes.
Proof.
  revert removed puzzle.
  induction cells as [|[r c] cells IH]; intros removed puzzle Hcells Hwf Hle;
    cbn [carve_loop].
  - intros [= <-]. lia.
  - destruct (Z.leb_spec holes removed) as [Hge|Hlt]; [intros [= <-]; lia|].
    assert (on_board (r, c)) as Hp by (apply Hcells; left).
    assert (forall p, p ∈ cells -> on_board p) as Hcells'
      by (intros; apply Hcells; by right).
    rewrite get_cell by done. cbn [mbind result_bind rbind].
    rewrite setitem_upd by done. cbn [mbind result_bind rbind].
    destruct (count_solutions_total (upd puzzle (r, c) 0) 2) as (n & Hn);
      [by apply upd_wf|].
    rewrite Hn. cbn [mbind result_bind rbind].
    destruct (n =? 1).
    + intros Hrun. pose proof (empties_upd puzzle (r, c) 0) as Hone.
      specialize (IH (removed + 1) (upd puzzle (r, c) 0) Hcells'
        (upd_wf _ _ _ Hwf) ltac:(lia) Hrun). lia.
    + rewrite setitem_upd by (auto using upd_wf).
      cbn [mbind result_bind rbind].
      rewrite upd_upd, upd_same by done.
      intros Hrun. specialize (IH removed puzzle Hcells' Hwf Hle Hrun). lia.
Qed.

Section carver_more.
Context {rng : Type} `{!Shuffle rng} `{!ShuffleSpec rng}.

Lemma make_puzzle_carved (solution : Board) (holes : Z) (s : rng) :
  wf solution -> valid solution ->
  exists puzzle s',
    make_puzzle solution holes s = Ok (puzzle, s') /\
    carved solution puzzle /\
    Z.of_nat (empties puzzle) <= Z.max 0 holes.
Proof.
  intros Hwf Hv. unfold make_puzzle.
  pose proof (shuffle_perm _ s all_cells) as Hperm.
  destruct (shuffle s all_cells) as [cells s']. cbn [fst] in Hperm.
  assert (forall p, p ∈ cells -> on_board p) as Hcells.
  { intros p Hp. apply elem_of_all_cells. by rewrite <- Hperm. }
  destruct (carve_loop_carved solution cells holes 0 solution)
    as (puzzle & Hrun & Hcarved); [done| |].
  { split; [done|]. split; [|by intros p].
    apply count_full; auto using valid_full. }
  exists puzzle, s'. rewrite Hrun. split; [done|]. split; [done|].
  apply (carve_loop_empties cells holes 0 solution); auto.
  rewrite empties_full by auto using valid_full. lia.
Qed.

Lemma carved_unique solution puzzle :
  wf solution -> valid solution -> carved solution puzzle ->
  completion puzzle solution /\
  forall s, completion puzzle s -> s = solution.
Proof.
  intros Hwf Hv (Hwfp & Hcount & Hext).
  assert (completion puzzle solution) as Hcompl by done.
  split; [done|].
  destruct (count_against_completions puzzle 2) as (k & Hrun & Hk & Hlim);
    eauto using completion_digits, completion_consistent.
  rewrite Hcount in Hrun. injection Hrun as <-.
  assert (length (completions puzzle) = 1%nat) as Hone by lia.
  apply completions_one in Hone as (s0 & _ & Huniq).
  intros s Hs. rewrite (Huniq s Hs). symmetry. by apply Huniq.
Qed.

(** The puzzle that [make_puzzle] carves from a solution satisfying the
    full-grid invariant has that solution as its one and only valid
    completion. *)
Theorem make_puzzle_unique_completion
    (solution : Board) (holes : Z) (s : rng) :
  wf solution -> valid solution ->
  exists puzzle s',
    make_puzzle solution holes s = Ok (puzzle, s') /\
    completion puzzle solution /\
    forall s0, completion puzzle s0 -> s0 = solution.
Proof.
  intros Hwf Hv.
  destruct (make_puzzle_carved solution holes s Hwf Hv)
    as (puzzle & s' & Hrun & Hcarved & _).
  exists puzzle, s'. split; [done|]. by apply carved_unique.
Qed.

(** Carving and solving are inverse: [solve_backtracking] run on the puzzle
    that [make_puzzle] carved from a solution satisfying the full-grid
    invariant returns [True] and leaves that solution. *)
Theorem solve_recovers_solution (solution : Board) (holes : Z) (s : rng) :
  wf solution -> valid solution ->
  exists puzzle s',
    make_puzzle solution holes s = Ok (puzzle, s') /\
    solve_backtracking puzzle = Ok (true, solution).
Proof.
  intros Hwf Hv.
  destruct (make_puzzle_carved solution holes s Hwf Hv)
    as (puzzle & s' & Hrun & Hcarved & _).
  exists puzzle, s'. split; [done|].
  destruct (carved_unique solution puzzle Hwf Hv Hcarved) as [Hcompl Huniq].
  destruct Hcarved as (Hwfp & _).
  destruct (solve_finds 82 0 puzzle solution) as (g' & Hsolve & _);
    auto using filled_upto_0; [lia|].
  destruct (solve_backtracking_run puzzle Hwfp) as (b & g'' & Hrun' & Hpost).
  unfold solve_backtracking in *. rewrite Hsolve in Hrun'.
  injection Hrun' as <- <-. rewrite Hsolve. do 2 f_equal.
  apply Huniq, solve_post_completion;
    eauto using completion_digits, completion_consistent.
Qed.

(** [make_puzzle] never empties more cells than asked: on a solution
    satisfying the full-grid invariant the puzzle has at most [holes] empty
    cells, none when [holes] is not positive. *)
Theorem make_puzzle_at_most_holes (solution : Board) (holes : Z) (s : rng) :
  wf solution -> valid solution ->
  exists puzzle s',
    make_puzzle solution holes s = Ok (puzzle, s') /\
    Z.of_nat (empties puzzle) <= Z.max 0 holes.
Proof.
  intros Hwf Hv.
  destruct (make_puzzle_carved solution holes s Hwf Hv)
    as (puzzle & s' & Hrun & _ & Hle).
  by exists puzzle, s'.
Qed.
End carver_more.

Lemma make_puzzle_unique_completion_witness :
  exists puzzle s',
    make_puzzle Examples.solved 45 ([] : Scripted.rng) = Ok (puzzle, s') /\
    completion puzzle Examples.solved /\
    forall s0, completion puzzle s0 -> s0 = Examples.solved.
Proof.
  apply make_puzzle_unique_completion; [solve_wf|by vm_compute].
Defined.

Lemma solve_recovers_solution_witness :
  exists puzzle s',
    make_puzzle Examples.solved 45 ([] : Scripted.rng) = Ok (puzzle, s') /\
    solve_backtracking puzzle = Ok (true, Examples.solved).
Proof.
  apply solve_recovers_solution; [solve_wf|by vm_compute].
Defined.

Lemma make_puzzle_at_most_holes_witness :
  exists puzzle s',
    make_puzzle Examples.solved 45 ([] : Scripted.rng) = Ok (puzzle, s') /\
    Z.of_nat (empties puzzle) <= Z.max 0 45.
Proof.
  apply make_puzzle_at_most_holes; [solve_wf|by vm_compute].
Defined.

(** With a hole count that is not positive, [make_puzzle] returns a copy of
    the board it was given, whatever that board is: the loop stops before
    it touches a cell. *)
Theorem make_puzzle_no_holes {rng : Type} `{!Shuffle rng}
    (board : Board) (holes : Z) (s : rng) :
  holes <= 0 ->
  make_puzzle board holes s = Ok (board, (shuffle s all_cells).2).
Proof.
  intros Hholes. unfold make_puzzle.
  destruct (shuffle s all_cells) as [[|[r c] cells] s']; cbn [carve_loop snd].
  - done.
  - destruct (Z.leb_spec holes 0); [done|lia].
Qed.

Lemma make_puzzle_no_holes_witness :
  make_puzzle Examples.clash 0 ([] : Scripted.rng) = Ok (Examples.clash, []).
Proof.
  exact (make_puzzle_no_holes (rng:=Scripted.rng) Examples.clash 0 []
           ltac:(lia)).
Defined.

(** ** Checking the entries *)

Lemma check_cells_run board cells marks :
  wf board -> (forall p, p ∈ cells -> on_board p) ->
  check_cells cells board marks =
  Ok (board,
      marks ++
      ((fun p => (p, negb (safe (upd board p 0) p (cell board p)))) <$>
       filter (fun p => cell board p <> 0) cells)).
Proof.
  intros Hwf. revert marks.
  induction cells as [|[r c] cells IH]; intros marks Hcells; cbn [check_cells].
  - by rewrite app_nil_r.
  - assert (on_board (r, c)) as Hp by (apply Hcells; left).
    assert (forall p, p ∈ cells -> on_board p) as Hcells'
      by (intros; apply Hcells; by right).
    rewrite get_cell by done. cbn [mbind result_bind rbind].
    rewrite filter_cons.
    destruct (Z.eqb_spec (cell board (r, c)) 0) as [H0|Hn0].
    + rewrite decide_False by (intros ?; done). by apply IH.
    + rewrite decide_True by done.
      rewrite setitem_upd by done. cbn [mbind result_bind rbind].
      rewrite is_safe_safe by auto using upd_wf.
      cbn [mbind result_bind rbind].
      rewrite setitem_upd by auto using upd_wf.
      cbn [mbind result_bind rbind].
      rewrite upd_upd, upd_same by done.
      rewrite IH by done. by rewrite <- app_assoc.
Qed.

Lemma red_iff_conflict board p :
  wf board -> on_board p -> cell board p <> 0 ->
  negb (safe (upd board p 0) p (cell board p)) = true <-> conflict board p.
Proof.
  intros Hwf Hp Hn0. rewrite negb_true_iff, safe_false by done. split.
  - intros (q & Hq & Hunit & Heq).
    assert (p <> q) as Hne.
    { intros <-. by rewrite cell_upd_eq in Heq. }
    rewrite cell_upd_ne in Heq by done. by exists q.
  - intros (q & Hq & [Hne Hunit] & Heq). exists q.
    by rewrite cell_upd_ne.
Qed.

Lemma check_run board :
  wf board ->
  exists marks,
    check board = Ok (board, marks) /\
    marks.*1 = filter (fun p => cell board p <> 0) all_cells /\
    forall p red, (p, red) ∈ marks -> (red = true <-> conflict board p).
Proof.
  intros Hwf. unfold check.
  rewrite check_cells_run by (done || (intros p; apply elem_of_all_cells)).
  eexists. split; [done|]. cbn [app]. split.
  - rewrite <- list_fmap_compose. apply list_fmap_id.
  - intros p red Hin. apply list_elem_of_fmap in Hin as (q & [= -> ->] & Hq).
    apply list_elem_of_filter in Hq as [Hn0 Hq].
    apply red_iff_conflict; auto. by apply elem_of_all_cells.
Qed.

Lemma consistent_no_conflict board :
  consistent board <->
  forall p, on_board p -> cell board p <> 0 -> ~ conflict board p.
Proof.
  split.
  - intros Hc p Hp Hn0 (q & Hq & Hpeers & Heq). by apply (Hc p q).
  - intros Hnc p q Hp Hq Hpeers Hn0 Heq. apply (Hnc p Hp Hn0). by exists q.
Qed.

Lemma check_clean board marks :
  marks.*1 = filter (fun p => cell board p <> 0) all_cells ->
  (forall p red, (p, red) ∈ marks -> (red = true <-> conflict board p)) ->
  (forall p red, (p, red) ∈ marks -> red = false) <-> consistent board.
Proof.
  intros Hcells Hred. rewrite consistent_no_conflict. split.
  - intros Hclean p Hp Hn0 Hconf.
    assert (p ∈ marks.*1) as Hin.
    { rewrite Hcells. apply list_elem_of_filter. split; [done|].
      by apply elem_of_all_cells. }
    apply list_elem_of_fmap in Hin as ([p' red] & -> & Hin). cbn [fst] in *.
    apply (Hred _ _ Hin) in Hconf. rewrite (Hclean _ _ Hin) in Hconf. done.
  - intros Hnc p red Hin. apply not_true_is_false. intros Hr.
    apply (Hred _ _ Hin) in Hr.
    assert (p ∈ marks.*1) as Hp by (by apply (list_elem_of_fmap_2 fst) in Hin).
    rewrite Hcells in Hp. apply list_elem_of_filter in Hp as [Hn0 Hp].
    apply (Hnc p); auto. by apply elem_of_all_cells.
Qed.

(** The check of the entries, run on a 9x9 board, leaves the board as it
    was (every cell it blanks for the test is written back) and paints,
    in row-major order, exactly the cells that are not empty: red when the
    value of the cell is also held by another cell of its row, column or
    box, white otherwise. *)
Theorem check_marks_conflicts board :
  wf board ->
  exists marks,
    check board = Ok (board, marks) /\
    marks.*1 = filter (fun p => cell board p <> 0) all_cells /\
    forall p red, (p, red) ∈ marks -> (red = true <-> conflict board p).
Proof. apply check_run. Qed.

Lemma check_marks_conflicts_witness :
  exists marks,
    check Examples.clash_open = Ok (Examples.clash_open, marks) /\
    marks.*1 = filter (fun p => cell Examples.clash_open p <> 0) all_cells /\
    forall p red, (p, red) ∈ marks ->
      (red = true <-> conflict Examples.clash_open p).
Proof. apply check_marks_conflicts. solve_wf. Defined.

(** The check paints no cell red exactly when the placed values of the 9x9
    board are consistent; on a board of integers in [0,9] without empty
    cells, exactly when the board satisfies the full-grid invariant. *)
Theorem check_clean_iff_consistent board :
  wf board ->
  exists marks,
    check board = Ok (board, marks) /\
    ((forall p red, (p, red) ∈ marks -> red = false) <-> consistent board) /\
    (digits board -> full board ->
     ((forall p red, (p, red) ∈ marks -> red = false) <-> valid board)).
Proof.
  intros Hwf. destruct (check_run board Hwf) as (marks & Hrun & Hcells & Hred).
  exists marks. split; [done|].
  pose proof (check_clean board marks Hcells Hred) as Hclean.
  split; [done|]. intros Hd Hfull. rewrite Hclean. split.
  - by apply full_consistent_valid.
  - apply valid_consistent.
Qed.

Lemma check_clean_iff_consistent_witness :
  exists marks,
    check Examples.solved = Ok (Examples.solved, marks) /\
    ((forall p red, (p, red) ∈ marks -> red = false) <->
     consistent Examples.solved) /\
    (digits Examples.solved -> full Examples.solved ->
     ((forall p red, (p, red) ∈ marks -> red = false) <->
      valid Examples.solved)).
Proof. apply check_clean_iff_consistent. solve_wf. Defined.

(** ** Indices off the board *)

(** [is_safe] on a 9x9 board with an index off the board: a row index of 9
    or more raises [IndexError]; with a row on the board and a column index
    of 9 or more, the answer is [False] when the value is in the row (the
    column is not read), and [IndexError] otherwise. *)
Theorem is_safe_off_board board row col value :
  wf board ->
  ((9 <= row)%nat -> is_safe board row col value = IndexError) /\
  ((row < 9)%nat -> (9 <= col)%nat ->
   ((exists c, (c < 9)%nat /\ cell board (row, c) = value) ->
    is_safe board row col value = Ok false) /\
   (~ (exists c, (c < 9)%nat /\ cell board (row, c) = value) ->
    is_safe board row col value = IndexError)).
Proof.
  intros Hwf. split.
  - intros Hrow. unfold is_safe, getitem.
    destruct Hwf as [Hlen _]. by rewrite lookup_ge_None_2 by lia.
  - intros Hrow Hcol.
    destruct (wf_lookup board row Hwf Hrow) as (cells & Hcells & Hlen).
    assert (existsb (Z.eqb value) cells = true <->
            exists c, (c < 9)%nat /\ cell board (row, c) = value) as Hin.
    { rewrite (row_values board row cells Hcells Hlen), existsb_values.
      rewrite existsb_exists. split.
      - intros ([r c] & Hq & Heq). apply list_elem_of_In in Hq.
        unfold row_cells in Hq. apply elem_of_block in Hq. cbn [fst snd] in Hq.
        apply Z.eqb_eq in Heq. exists c. split; [lia|].
        assert (r = row) as <- by lia. done.
      - intros (c & Hc & Heq). exists (row, c). split; [|by apply Z.eqb_eq].
        apply list_elem_of_In. unfold row_cells. apply elem_of_block.
        cbn [fst snd]. lia. }
    unfold is_safe, getitem. rewrite Hcells. cbn [mbind result_bind rbind].
    destruct (existsb (Z.eqb value) cells) eqn:Hex.
    + split; [done|]. intros Hnot. destruct Hnot. by apply Hin.
    + split.
      * intros Hyes. apply Hin in Hyes. done.
      * intros _. destruct (wf_lookup board 0 Hwf) as (row0 & Hrow0 & Hlen0);
          [lia|].
        unfold block. cbn [seq mbind list_bind mjoin fmap list_fmap app].
        cbn [any_eq]. unfold get, getitem. rewrite Hrow0.
        cbn [mbind result_bind rbind].
        by rewrite (lookup_ge_None_2 row0 col) by lia.
Qed.

Lemma is_safe_off_board_witness :
  is_safe Examples.puzzle 9 0 5 = IndexError /\
  is_safe Examples.puzzle 1 9 4 = Ok false /\
  is_safe Examples.puzzle 1 9 5 = IndexError.
Proof.
  assert (wf Examples.puzzle) as Hwf by solve_wf.
  destruct (is_safe_off_board Examples.puzzle 9 0 5 Hwf) as [H9 _].
  destruct (is_safe_off_board Examples.puzzle 1 9 4 Hwf) as [_ H4].
  destruct (is_safe_off_board Examples.puzzle 1 9 5 Hwf) as [_ H5].
  split; [apply H9; lia|]. split.
  - apply H4; [lia|lia|]. exists 0%nat. split; [lia|reflexivity].
  - apply H5; [lia|lia|]. intros (c & Hc & Hv).
    do 9 (destruct c as [|c]; [by vm_compute in Hv|]). lia.
Defined.

(** ** Generating a puzzle *)

Lemma dict_get_Some d key v : dict_get d key = Some v -> (key, v) ∈ d.
Proof.
  induction d as [|[k w] d IH]; cbn [dict_get]; [done|].
  destruct (decide (key = k)) as [->|Hne].
  - intros [= ->]. left.
  - intros Hget. right. by apply IH.
Qed.

Lemma dict_get_None d key : dict_get d key = None -> forall v, (key, v) ∉ d.
Proof.
  induction d as [|[k w] d IH]; cbn [dict_get]; intros Hget v Hin.
  - by apply not_elem_of_nil in Hin.
  - destruct (decide (key = k)) as [->|Hne]; [done|].
    apply elem_of_cons in Hin as [[= -> ->]|Hin]; [done|].
    by apply (IH Hget v).
Qed.

Lemma mask_row_run puzzle r cols :
  wf puzzle -> (r < 9)%nat -> Forall (fun c => (c < 9)%nat) cols ->
  mask_row puzzle r cols =
  Ok ((fun c => negb (cell puzzle (r, c) =? 0)) <$> cols).
Proof.
  intros Hwf Hr. induction 1 as [|c cols Hc Hcols IH]; cbn [mask_row]; [done|].
  rewrite get_cell by done. cbn [mbind result_bind rbind].
  rewrite IH. done.
Qed.

Lemma mask_rows_run puzzle rows :
  wf puzzle -> Forall (fun r => (r < 9)%nat) rows ->
  mask_rows puzzle rows =
  Ok ((fun r => (fun c => negb (cell puzzle (r, c) =? 0)) <$> seq 0 9)
      <$> rows).
Proof.
  intros Hwf. induction 1 as [|r rows Hr Hrows IH]; cbn [mask_rows]; [done|].
  rewrite mask_row_run; [|done|done|].
  - cbn [mbind result_bind rbind]. rewrite IH. done.
  - apply Forall_forall. intros c Hc. apply elem_of_seq in Hc. lia.
Qed.

Lemma blank_cells p : on_board p -> cell Examples.blank p = 0.
Proof.
  assert (Forall (fun p => cell Examples.blank p = 0) all_cells) as H
    by by_computation.
  rewrite Forall_all_cells in H. apply H.
Qed.

Lemma blank_wf : wf Examples.blank.
Proof. solve_wf. Qed.

(** The empty board has more than one completion, so the uniqueness test
    fails on it. *)
Lemma count_blank :
  exists n, count_solutions Examples.blank 2 = Ok (n, Examples.blank) /\ n <> 1.
Proof.
  destruct (count_against_completions Examples.blank 2)
    as (k & Hrun & Hk & Hlim).
  - exact blank_wf.
  - intros p Hp. rewrite blank_cells by done. lia.
  - intros p q Hp _ _ Hn0. destruct Hn0. by apply blank_cells.
  - exists k. split; [done|]. intros ->.
    assert (length (completions Examples.blank) = 1%nat) as Hone by lia.
    apply completions_one in Hone as (s0 & _ & Huniq).
    assert (forall s, wf s -> valid s -> completion Examples.blank s) as Hany.
    { intros s Hwf Hv. split; [done|]. split; [done|].
      intros p Hp Hn0. destruct Hn0. by apply blank_cells. }
    assert (Examples.solved = Examples.ordered); [|done].
    rewrite (Huniq Examples.solved), (Huniq Examples.ordered); [done| |].
    + apply Hany; [solve_wf|by vm_compute].
    + apply Hany; [solve_wf|by vm_compute].
Qed.

Lemma carve_loop_blank cells holes removed :
  (forall p, p ∈ cells -> on_board p) ->
  carve_loop cells holes removed Examples.blank = Ok Examples.blank.
Proof.
  revert removed. induction cells as [|[r c] cells IH]; intros removed Hcells;
    cbn [carve_loop]; [done|].
  destruct (holes <=? removed); [done|].
  assert (on_board (r, c)) as Hp by (apply Hcells; left).
  assert (forall p, p ∈ cells -> on_board p) as Hcells'
    by (intros; apply Hcells; by right).
  pose proof blank_wf as Hwf.
  assert (upd Examples.blank (r, c) 0 = Examples.blank) as Hsame.
  { rewrite <- (blank_cells (r, c) Hp) at 1. by apply upd_same. }
  rewrite get_cell by done. cbn [mbind result_bind rbind].
  rewrite setitem_upd by done. cbn [mbind result_bind rbind].
  rewrite Hsame. destruct count_blank as (n & -> & Hn).
  cbn [mbind result_bind rbind].
  destruct (Z.eqb_spec n 1) as [|_]; [done|].
  rewrite setitem_upd by done. cbn [mbind result_bind rbind].
  rewrite upd_same by done. by apply IH.
Qed.

(** A board with exactly one valid completion is solved to it. *)
Lemma unique_completion_solved puzzle solution :
  wf puzzle -> completion puzzle solution ->
  (forall s, completion puzzle s -> s = solution) ->
  solve_backtracking puzzle = Ok (true, solution).
Proof.
  intros Hwf Hcompl Huniq.
  destruct (solve_finds 82 0 puzzle solution) as (g' & Hsolve & _);
    auto using filled_upto_0; [lia|].
  destruct (solve_backtracking_run puzzle Hwf) as (b & g'' & Hrun & Hpost).
  unfold solve_backtracking in *. rewrite Hsolve in Hrun.
  injection Hrun as <- <-. rewrite Hsolve. do 2 f_equal.
  apply Huniq, solve_post_completion;
    eauto using completion_digits, completion_consistent.
Qed.

Section generate_correct.
Context {rng : Type} `{!Shuffle rng} `{!ShuffleSpec rng}.

Lemma make_puzzle_blank (holes : Z) (s : rng) :
  exists s', make_puzzle Examples.blank holes s = Ok (Examples.blank, s').
Proof.
  unfold make_puzzle.
  pose proof (shuffle_perm _ s all_cells) as Hperm.
  destruct (shuffle s all_cells) as [cells s']. cbn [fst] in Hperm.
  rewrite carve_loop_blank.
  - by exists s'.
  - intros p Hp. apply elem_of_all_cells. by rewrite <- Hperm.
Qed.


Lemma generate_cases (difficulty : string) (holes : Z) (s : rng) :
  dict_get DIFFICULTY difficulty = Some holes ->
  exists g s',
    generate difficulty s = Some (Ok (g, s')) /\
    (forall r c, (r < 9)%nat -> (c < 9)%nat ->
       fixed_mask g !! r ≫= (fun row => row !! c) =
       Some (negb (cell (shown_puzzle g) (r, c) =? 0))) /\
    ((wf (stored_solution g) /\ valid (stored_solution g) /\
      wf (shown_puzzle g) /\
      completion (shown_puzzle g) (stored_solution g) /\
      (forall s0, completion (shown_puzzle g) s0 -> s0 = stored_solution g) /\
      Z.of_nat (empties (shown_puzzle g)) <= holes) \/
     (stored_solution g = Examples.blank /\ shown_puzzle g = Examples.blank)).
Proof.
  intros Hget. unfold generate. rewrite Hget.
  apply dict_get_Some in Hget.
  assert (0 <= holes) as Hholes.
  { unfold DIFFICULTY in Hget. rewrite !elem_of_cons in Hget.
    destruct Hget as [[= _ ->]|[[= _ ->]|[[= _ ->]|Hnil]]]; try lia.
    by apply not_elem_of_nil in Hnil. }
  assert (forall (puzzle solution : Board) (s' : rng),
    wf puzzle ->
    exists g,
      (mask ← mask_rows puzzle (seq 0 9);
       Ok (Generated puzzle mask solution, s')) = Ok (g, s') /\
      shown_puzzle g = puzzle /\ stored_solution g = solution /\
      forall r c, (r < 9)%nat -> (c < 9)%nat ->
        fixed_mask g !! r ≫= (fun row => row !! c) =
        Some (negb (cell puzzle (r, c) =? 0))) as Hmask.
  { intros puzzle solution s' Hwf. rewrite mask_rows_run; [|done|].
    2:{ apply Forall_forall. intros r Hr. apply elem_of_seq in Hr. lia. }
    cbn [mbind result_bind rbind]. eexists. split; [done|].
    cbn [shown_puzzle stored_solution fixed_mask]. split; [done|].
    split; [done|]. intros r c Hr Hc.
    rewrite list_lookup_fmap, lookup_seq_lt by done.
    cbn [fmap option_fmap option_map mbind option_bind].
    rewrite list_lookup_fmap, lookup_seq_lt by done. done. }
  destruct (generate_full_board_valid_or_empty s)
    as (full & s1 & -> & [[Hwf Hv]| ->]); cbn [mbind result_bind rbind].
  - destruct (make_puzzle_carved full holes s1 Hwf Hv)
      as (puzzle & s2 & -> & Hcarved & Hle).
    cbn [mbind result_bind rbind].
    destruct (carved_unique full puzzle Hwf Hv Hcarved) as [Hcompl Huniq].
    destruct (Hmask puzzle full s2) as (g & -> & Hp & Hs & Hm);
      [by destruct Hcarved|].
    exists g, s2. rewrite Hp, Hs. split; [done|]. split; [done|].
    left. destruct Hcarved as (Hwfp & _). repeat (split; [done|]). lia.
  - destruct (make_puzzle_blank holes s1) as (s2 & Hrun).
    fold Examples.blank. rewrite Hrun. cbn [mbind result_bind rbind].
    destruct (Hmask Examples.blank Examples.blank s2)
      as (g & -> & Hp & Hs & Hm); [exact blank_wf|].
    exists g, s2. rewrite Hp, Hs. split; [done|]. split; [done|]. by right.
Qed.

(** [generate] raises [KeyError] exactly for a text that is not a key of
    [DIFFICULTY]. For a key, and for every random source that satisfies the
    contract of [random.shuffle], it shows a puzzle and a mask that fixes
    exactly the non-empty cells of the puzzle, and either the stored
    solution satisfies the full-grid invariant, is the one and only valid
    completion of the puzzle, and the puzzle has at most as many empty cells
    as the difficulty asks for; or the generator gave up and both the stored
    solution and the puzzle are the empty board. *)
Theorem generate_outcome (difficulty : string) (s : rng) :
  match generate difficulty s with
  | None => forall holes, (difficulty, holes) ∉ DIFFICULTY
  | Some run =>
      exists holes g s',
        (difficulty, holes) ∈ DIFFICULTY /\
        run = Ok (g, s') /\
        (forall r c, (r < 9)%nat -> (c < 9)%nat ->
           fixed_mask g !! r ≫= (fun row => row !! c) =
           Some (negb (cell (shown_puzzle g) (r, c) =? 0))) /\
        ((wf (stored_solution g) /\ valid (stored_solution g) /\
          completion (shown_puzzle g) (stored_solution g) /\
          (forall s0, completion (shown_puzzle g) s0 ->
             s0 = stored_solution g) /\
          Z.of_nat (empties (shown_puzzle g)) <= holes) \/
         (stored_solution g = Examples.blank /\
          shown_puzzle g = Examples.blank))
  end.
Proof.
  destruct (dict_get DIFFICULTY difficulty) as [holes|] eqn:Hget.
  - destruct (generate_cases difficulty holes s Hget)
      as (g & s' & -> & Hmask & Hcases).
    exists holes, g, s'. split; [by apply dict_get_Some|].
    split; [done|]. split; [done|].
    destruct Hcases as [(Hwf & Hv & _ & Hcompl & Huniq & Hle)|Hblank];
      [by left|by right].
  - unfold generate. rewrite Hget. by apply dict_get_None.
Qed.

(** Checking right after generating: for every key of [DIFFICULTY] and
    every random source that satisfies the contract of [random.shuffle],
    the loop of [check] run on the puzzle that [generate] shows returns,
    leaves the puzzle as it is and colours no cell red. *)
Theorem generate_then_check (difficulty : string) (holes : Z) (s : rng) :
  dict_get DIFFICULTY difficulty = Some holes ->
  exists g s' marks,
    generate difficulty s = Some (Ok (g, s')) /\
    check (shown_puzzle g) = Ok (shown_puzzle g, marks) /\
    forall p red, (p, red) ∈ marks -> red = false.
Proof.
  intros Hget.
  destruct (generate_cases difficulty holes s Hget)
    as (g & s' & Hrun & _ & Hcases).
  assert (wf (shown_puzzle g) /\ consistent (shown_puzzle g)) as [Hwf Hc].
  { destruct Hcases as [(_ & _ & Hwf & Hcompl & _)|[_ ->]].
    - split; [done|]. by apply (completion_consistent _ _ Hcompl).
    - split; [exact blank_wf|]. intros p q Hp _ _ Hn0. destruct Hn0.
      by apply blank_cells. }
  destruct (check_run (shown_puzzle g) Hwf) as (marks & Hcheck & Hcells & Hred).
  exists g, s', marks. split; [done|]. split; [done|].
  by apply (check_clean (shown_puzzle g) marks Hcells Hred).
Qed.

(** Solving right after generating: for every key of [DIFFICULTY] and every
    random source that satisfies the contract of [random.shuffle],
    [solve_backtracking] run on the puzzle that [generate] shows returns
    [True], and it leaves the stored solution, unless the generator gave up:
    then the stored solution is the empty board and the solver leaves the
    first solved board in row-major order. *)
Theorem generate_then_solve (difficulty : string) (holes : Z) (s : rng) :
  dict_get DIFFICULTY difficulty = Some holes ->
  exists g s' board',
    generate difficulty s = Some (Ok (g, s')) /\
    solve_backtracking (shown_puzzle g) = Ok (true, board') /\
    (board' = stored_solution g \/
     (stored_solution g = Examples.blank /\ board' = Examples.ordered)).
Proof.
  intros Hget.
  destruct (generate_cases difficulty holes s Hget)
    as (g & s' & Hrun & _ & Hcases).
  destruct Hcases as [(_ & _ & Hwf & Hcompl & Huniq & _)|[Hs Hp]].
  - exists g, s', (stored_solution g). split; [done|]. split; [|by left].
    by apply unique_completion_solved.
  - exists g, s', Examples.ordered. split; [done|]. rewrite Hp.
    split; [vm_compute; reflexivity|by right].
Qed.
End generate_correct.

Lemma generate_outcome_witness :
  match generate "Միջին" ([] : Scripted.rng) with
  | None => forall holes, ("Միջին", holes) ∉ DIFFICULTY
  | Some run =>
      exists holes g s',
        ("Միջին", holes) ∈ DIFFICULTY /\
        run = Ok (g, s') /\
        (forall r c, (r < 9)%nat -> (c < 9)%nat ->
           fixed_mask g !! r ≫= (fun row => row !! c) =
           Some (negb (cell (shown_puzzle g) (r, c) =? 0))) /\
        ((wf (stored_solution g) /\ valid (stored_solution g) /\
          completion (shown_puzzle g) (stored_solution g) /\
          (forall s0, completion (shown_puzzle g) s0 ->
             s0 = stored_solution g) /\
          Z.of_nat (empties (shown_puzzle g)) <= holes) \/
         (stored_solution g = Examples.blank /\
          shown_puzzle g = Examples.blank))
  end.
Proof. apply (generate_outcome (rng:=Scripted.rng)). Defined.

Lemma generate_then_check_witness :
  exists g s' marks,
    generate "Հեշտ" ([] : Scripted.rng) = Some (Ok (g, s')) /\
    check (shown_puzzle g) = Ok (shown_puzzle g, marks) /\
    forall p red, (p, red) ∈ marks -> red = false.
Proof. apply (generate_then_check "Հեշտ" 36). reflexivity. Defined.

Lemma generate_then_solve_witness :
  exists g s' board',
    generate "Դժվար" ([] : Scripted.rng) = Some (Ok (g, s')) /\
    solve_backtracking (shown_puzzle g) = Ok (true, board') /\
    (board' = stored_solution g \/
     (stored_solution g = Examples.blank /\ board' = Examples.ordered)).
Proof. apply (generate_then_solve "Դժվար" 54). reflexivity. Defined.

(** ** The generator *)

(** For every random source that satisfies the contract of
    [random.shuffle], [generate_full_board] returns, and the board it
    returns either satisfies the full-grid invariant or is the board it
    started from, with every cell 0. *)
Theorem generate_full_board_outcome
    {rng : Type} `{!Shuffle rng} `{!ShuffleSpec rng} (s : rng) :
  exists board s',
    generate_full_board s = Ok (board, s') /\
    ((wf board /\ valid board) \/ board = replicate 9 (replicate 9 0)).
Proof. apply generate_full_board_valid_or_empty. Qed.

Lemma generate_full_board_outcome_witness :
  exists board s',
    generate_full_board ([] : Scripted.rng) = Ok (board, s') /\
    ((wf board /\ valid board) \/ board = replicate 9 (replicate 9 0)).
Proof. apply generate_full_board_outcome. Defined.

(** ** Boards of any shape *)

Lemma find_empty_from_any board cells :
  match find_empty_from board cells with
  | Ok (Some p) =>
      exists i, cells !! i = Some p /\ get board p.1 p.2 = Ok 0 /\
        forall j q, (j < i)%nat -> cells !! j = Some q ->
          exists v, get board q.1 q.2 = Ok v /\ v <> 0
  | Ok None =>
      forall q, q ∈ cells -> exists v, get board q.1 q.2 = Ok v /\ v <> 0
  | IndexError =>
      exists i p, cells !! i = Some p /\ get board p.1 p.2 = IndexError /\
        forall j q, (j < i)%nat -> cells !! j = Some q ->
          exists v, get board q.1 q.2 = Ok v /\ v <> 0
  | OutOfFuel => False
  end.
Proof.
  induction cells as [|[r c] cells IH]; cbn [find_empty_from].
  - intros q Hq. by apply not_elem_of_nil in Hq.
  - assert (get board r c <> OutOfFuel) as Hfuel.
    { unfold get, getitem. destruct (board !! r) as [row|]; [|done].
      cbn [mbind result_bind rbind]. by destruct (row !! c). }
    destruct (get board r c) as [v| |] eqn:Hget; cbn [mbind result_bind rbind];
      [| |done].
    + destruct (Z.eqb_spec v 0) as [->|Hn0].
      * exists 0%nat. split; [done|]. split; [done|]. intros; lia.
      * assert (forall i, (forall j q, (j < i)%nat -> cells !! j = Some q ->
            exists v, get board q.1 q.2 = Ok v /\ v <> 0) ->
          forall j q, (j < S i)%nat -> ((r, c) :: cells) !! j = Some q ->
            exists v, get board q.1 q.2 = Ok v /\ v <> 0) as Hshift.
        { intros i Hbefore [|j] q Hj Hq; cbn in Hq.
          - injection Hq as <-. by exists v.
          - apply (Hbefore j); [lia|done]. }
        destruct (find_empty_from board cells) as [[p|]| |]; [| | |done].
        -- destruct IH as (i & Hi & H0 & Hbefore). exists (S i).
           split; [done|]. split; [done|]. by apply Hshift.
        -- intros q [->|Hq]%elem_of_cons; [by exists v|by apply IH].
        -- destruct IH as (i & p & Hi & Herr & Hbefore). exists (S i), p.
           split; [done|]. split; [done|]. by apply Hshift.
    + exists 0%nat, (r, c). split; [done|]. split; [done|]. intros; lia.
Qed.

(** [find_empty] on nested lists of any shape. It returns [None] exactly
    when all 81 cells of the 9x9 corner exist and none is 0; it returns
    [(r, c)] when that cell holds 0 and every cell before it in row-major
    order exists and is not 0; and it raises [IndexError] at the first cell
    that does not exist, when no cell before it holds 0. Rows and columns
    from index 9 on are never read. *)
Theorem find_empty_any_board board :
  match find_empty board with
  | Ok (Some p) =>
      on_board p /\ get board p.1 p.2 = Ok 0 /\
      forall q, on_board q -> before q p ->
        exists v, get board q.1 q.2 = Ok v /\ v <> 0
  | Ok None =>
      forall q, on_board q -> exists v, get board q.1 q.2 = Ok v /\ v <> 0
  | IndexError =>
      exists p, on_board p /\ get board p.1 p.2 = IndexError /\
        forall q, on_board q -> before q p ->
          exists v, get board q.1 q.2 = Ok v /\ v <> 0
  | OutOfFuel => False
  end.
Proof.
  unfold find_empty. pose proof (find_empty_from_any board all_cells) as H.
  destruct (find_empty_from board all_cells) as [[p|]| |]; [| | |done].
  - destruct H as (i & Hi & H0 & Hbefore).
    apply all_cells_lookup in Hi as [Hp ->]. split; [done|]. split; [done|].
    intros q Hq Hlt. apply (Hbefore _ q Hlt). by apply all_cells_lookup.
  - intros q Hq. apply H. by apply elem_of_all_cells.
  - destruct H as (i & p & Hi & Herr & Hbefore).
    apply all_cells_lookup in Hi as [Hp ->]. exists p.
    split; [done|]. split; [done|].
    intros q Hq Hlt. apply (Hbefore _ q Hlt). by apply all_cells_lookup.
Qed.
